(** * v8pp: native-object registry and native-to-script conversions

    A shallow embedding of [v8pp/to_v8.hpp]: the monostate
    [detail::object_registry<T>] with its two storage layouts, and the
    [to_v8] overload family for C strings, integers, booleans, class
    pointers, random-access ranges and [std::map]. *)

From Stdlib Require Import ZArith Ascii String List Lia.
From stdpp Require Import base option list gmap fin_maps fin_sets strings.

(** ** Data model *)

(** A native address ([T*] or [void*]), the identity of a class template
    argument [T], the identity of a persistent handle, and the address of a
    [destroy] callback. *)
Definition addr := N.
Definition ty := N.
Definition persistent := N.
Definition fnptr := N.

(** A [v8::Handle<v8::Value>].  [Empty] is the default-constructed handle;
    [Persistent h] is the script value a persistent handle refers to.  An
    array slot is [None] while it is a hole. *)
#[warnings="-register-all"]
Inductive value : Type :=
| Empty
| Str (s : string)
| Int32 (n : Z)
| Uint32 (n : Z)
| Boolean (b : bool)
| Array (elems : list (option value))
| Object (props : list (string * value))
| Persistent (h : persistent).

(** What the registry does to the outside world: [it->second.Dispose()] and
    the call [destroy(object)] through a non-null function pointer of
    [object_registry<T>].  The callee is outside this file; it is taken to
    return without calling back into the registry. *)
Inductive event : Type :=
| Dispose (h : persistent)
| Destroy (destroy : fnptr) (T : ty) (object : addr).

#[global] Instance event_eq_dec : EqDecision event.
Proof. solve_decision. Defined.

(** The process-wide state behind the function-local statics.
    [V8PP_USE_GLOBAL_OBJECTS_REGISTRY] is the build-time switch; no operation
    changes it.  [items_] holds the [static objects items_] of each
    instantiation, [global_registry_objects_] the one exported table,
    [instances_] the [static boost::unordered_set<T*> instances_] of each
    instantiation. *)
Record world : Type := World {
  V8PP_USE_GLOBAL_OBJECTS_REGISTRY : bool;
  items_ : gmap ty (gmap addr persistent);
  global_registry_objects_ : gmap addr persistent;
  instances_ : gmap ty (gset addr);
  trace : list event
}.

Definition startup (global : bool) : world :=
  World global ∅ ∅ ∅ [].

(** ** object_registry<T> *)

(** [items()] *)
Definition items (T : ty) (w : world) : gmap addr persistent :=
  if V8PP_USE_GLOBAL_OBJECTS_REGISTRY w
  then global_registry_objects_ w
  else items_ w !!! T.

Definition set_items (T : ty) (m : gmap addr persistent) (w : world) : world :=
  if V8PP_USE_GLOBAL_OBJECTS_REGISTRY w
  then World (V8PP_USE_GLOBAL_OBJECTS_REGISTRY w) (items_ w) m
             (instances_ w) (trace w)
  else World (V8PP_USE_GLOBAL_OBJECTS_REGISTRY w) (<[T:=m]> (items_ w))
             (global_registry_objects_ w) (instances_ w) (trace w).

(** [instances()] *)
Definition instances (T : ty) (w : world) : gset addr :=
  instances_ w !!! T.

Definition set_instances (T : ty) (s : gset addr) (w : world) : world :=
  World (V8PP_USE_GLOBAL_OBJECTS_REGISTRY w) (items_ w)
        (global_registry_objects_ w) (<[T:=s]> (instances_ w)) (trace w).

Definition emit (e : event) (w : world) : world :=
  World (V8PP_USE_GLOBAL_OBJECTS_REGISTRY w) (items_ w)
        (global_registry_objects_ w) (instances_ w) (trace w ++ [e]).

(** [boost::unordered_map::insert]: a key that is present keeps its value. *)
Definition unordered_map_insert (k : addr) (v : persistent)
    (m : gmap addr persistent) : gmap addr persistent :=
  match m !! k with
  | Some _ => m
  | None => <[k:=v]> m
  end.

Definition add (T : ty) (object : addr) (value : persistent) (w : world) : world :=
  let w1 := if V8PP_USE_GLOBAL_OBJECTS_REGISTRY w
            then set_instances T ({[object]} ∪ instances T w) w
            else w in
  set_items T (unordered_map_insert object value (items T w1)) w1.

Definition remove (T : ty) (object : addr) (destroy : option fnptr) (w : world) : world :=
  let w1 := if V8PP_USE_GLOBAL_OBJECTS_REGISTRY w
            then set_instances T (instances T w ∖ {[object]}) w
            else w in
  match items T w1 !! object with
  | Some h =>
      let w2 := emit (Dispose h) w1 in
      let w3 := set_items T (delete object (items T w2)) w2 in
      match destroy with
      | Some f => emit (Destroy f T object) w3
      | None => w3
      end
  | None => w1
  end.

Definition find (T : ty) (native : addr) (w : world) : value :=
  match items T w !! native with
  | Some h => Persistent h
  | None => Empty
  end.

(** [remove_all] picks [*instances().begin()] or [items().begin()->first];
    the iteration order of the unordered containers is not fixed, so the
    choice is a parameter. *)
Definition begin_spec (begin_ : gset addr → option addr) : Prop :=
  ∀ s, match begin_ s with Some x => x ∈ s | None => s = ∅ end.

(** The container the [while] loop of [remove_all] drains. *)
Definition pending (T : ty) (w : world) : gset addr :=
  if V8PP_USE_GLOBAL_OBJECTS_REGISTRY w
  then instances T w
  else dom (items T w).

(** The loop runs at most [fuel] iterations; [None] is running out of fuel. *)
Fixpoint remove_all (begin_ : gset addr → option addr) (fuel : nat)
    (T : ty) (destroy : option fnptr) (w : world) : option world :=
  match fuel with
  | O => None
  | S fuel' =>
      match begin_ (pending T w) with
      | None => Some w
      | Some object => remove_all begin_ fuel' T destroy (remove T object destroy w)
      end
  end.

(** What one successful [remove] of the entry [it] emits. *)
Definition removal_events (T : ty) (destroy : option fnptr) (it : addr * persistent)
    : list event :=
  Dispose (snd it) ::
  match destroy with
  | Some f => [Destroy f T (fst it)]
  | None => []
  end.

(** [object] is registered with [object_registry<T>]: the table [items()]
    holds an entry for it. *)
Definition registered (T : ty) (object : addr) (w : world) : Prop :=
  object ∈ dom (items T w).

(** The entries [remove_all] of [object_registry<T>] is there to drain: the
    per-type table, or the part of the global table that [instances()]
    attributes to [T]. *)
Definition registered_entries (T : ty) (w : world) : gmap addr persistent :=
  if V8PP_USE_GLOBAL_OBJECTS_REGISTRY w
  then filter (λ it, fst it ∈ instances T w) (global_registry_objects_ w)
  else items_ w !!! T.

(** One iteration order, for concrete runs: the first element stdpp lists. *)
Definition first_element (s : gset addr) : option addr := head (elements s).

(** Two objects of class 1 and one of class 2 in the global layout. *)
Definition two_objects : world :=
  add 1%N 3%N 30%N (add 1%N 2%N 20%N (add 2%N 1%N 10%N (startup true))).

(** The global layout after class 1 and class 2 registered the same address
    and class 1 removed it: address 100 is left in the instance set of
    class 2 with no entry in the table. *)
Definition stale_instance : world :=
  remove 1%N 100%N None (add 2%N 100%N 8%N (add 1%N 100%N 7%N (startup true))).

(** The registry as its callers drive it: a call, and what it returns. *)
Inductive call : Type :=
| CallAdd (T : ty) (object : addr) (value : persistent)
| CallRemove (T : ty) (object : addr) (destroy : option fnptr)
| CallFind (T : ty) (native : addr).

Definition call_ty (c : call) : ty :=
  match c with
  | CallAdd T _ _ | CallRemove T _ _ | CallFind T _ => T
  end.

Definition call_addr (c : call) : addr :=
  match c with
  | CallAdd _ o _ | CallRemove _ o _ | CallFind _ o => o
  end.

Definition exec (c : call) (w : world) : world * list value :=
  match c with
  | CallAdd T object value => (add T object value w, [])
  | CallRemove T object destroy => (remove T object destroy w, [])
  | CallFind T native => (w, [find T native w])
  end.

Fixpoint run (cs : list call) (w : world) : world * list value :=
  match cs with
  | [] => (w, [])
  | c :: rest =>
      let '(w1, r1) := exec c w in
      let '(w2, r2) := run rest w1 in
      (w2, r1 ++ r2)
  end.

(** What a caller can see of a run from program start: the handles the
    [find] calls returned, and the disposals and callback invocations. *)
Definition observe (global : bool) (cs : list call) : list value * list event :=
  let '(w, results) := run cs (startup global) in (results, trace w).

(** Every address of the run is used at one class type, the one [owner]
    gives it. *)
Definition single_typed (owner : addr → ty) (cs : list call) : Prop :=
  Forall (λ c, call_ty c = owner (call_addr c)) cs.

(** The per-type layout [wp] and the global layout [wg] hold the same
    entries and have emitted the same events. *)
Definition layouts_agree (owner : addr → ty) (wp wg : world) : Prop :=
  V8PP_USE_GLOBAL_OBJECTS_REGISTRY wp = false
  ∧ V8PP_USE_GLOBAL_OBJECTS_REGISTRY wg = true
  ∧ trace wp = trace wg
  ∧ ∀ o, items (owner o) wp !! o = global_registry_objects_ wg !! o.

(** ** Machine integers *)

(** Conversion to [int] and the wrap-around of [uint32_t]. *)
Definition to_int (z : Z) : Z := ((z + 2 ^ 31) mod 2 ^ 32 - 2 ^ 31)%Z.
Definition to_uint32 (z : Z) : Z := (z mod 2 ^ 32)%Z.

(** ** The runtime primitives the conversions call *)

Definition NUL : ascii := Ascii.zero.

(** The characters a [char const*] points to, up to the terminator. *)
Fixpoint c_str (data : string) : string :=
  match data with
  | EmptyString => EmptyString
  | String c rest => if decide (c = NUL) then EmptyString else String c (c_str rest)
  end.

(** [v8::String::New(data, length = -1)] *)
Definition String_New (data : string) (length : Z) : value :=
  Str (if decide (length = (-1)%Z) then c_str data
       else String.substring 0 (Z.to_nat length) data).

(** [v8::Array::New(length)]: [length] holes, none for a negative length. *)
Definition Array_New (length : Z) : list (option value) :=
  replicate (Z.to_nat length) None.

(** [array->Set(index, v)]: a store past the end grows the array. *)
Definition Array_Set (index : Z) (v : value) (elems : list (option value))
    : list (option value) :=
  let i := Z.to_nat index in
  if decide (i < length elems)%nat
  then <[i:=Some v]> elems
  else elems ++ replicate (i - length elems) None ++ [Some v].

Definition Object_New : list (string * value) := [].

(** A property store: an existing name keeps its place and takes the new
    value, a new name is appended. *)
Fixpoint set_property (name : string) (v : value) (props : list (string * value))
    : list (string * value) :=
  match props with
  | [] => [(name, v)]
  | (n, x) :: rest =>
      if decide (n = name) then (n, v) :: rest
      else (n, x) :: set_property name v rest
  end.

Fixpoint get_property (name : string) (props : list (string * value)) : option value :=
  match props with
  | [] => None
  | (n, x) :: rest => if decide (n = name) then Some x else get_property name rest
  end.

(** The property name the runtime derives from a key value. *)
Class ToName := to_name : value → string.

(** [object->Set(key, v)] *)
Definition Object_Set `{ToName} (key v : value) (props : list (string * value))
    : list (string * value) :=
  set_property (to_name key) v props.

(** ** to_v8 *)

(** One overload per native shape; the class-pointer overload reads the
    registry, so every overload takes the process state.  The [int64_t],
    [uint64_t], [float] and [double] overloads build a double-precision
    number and are left out. *)
Class ToV8 (A : Type) := to_v8 : world → A → value.
#[global] Hint Mode ToV8 ! : typeclass_instances.

(** A [T const*] to a class type, a [char const*] ([None] is the null
    pointer), and a [std::map] as its entries in iteration order. *)
Record class_ptr (T : ty) : Type := ClassPtr { address : addr }.
Arguments ClassPtr {T} _.
Arguments address {T} _.

(** A [T const&]: the object at [referent]. *)
Record class_ref (T : ty) : Type := ClassRef { referent : addr }.
Arguments ClassRef {T} _.
Arguments referent {T} _.

Record char_ptr : Type := CharPtr { chars : option string }.

(** A value of an enumeration type, by its underlying integer. *)
Record enum_value : Type := EnumValue { ordinal : Z }.

Record std_map (K V : Type) : Type := StdMap { entries : list (K * V) }.
Arguments StdMap {K V} _.
Arguments entries {K V} _.

#[global] Instance to_v8_handle : ToV8 value := λ _ src, src.

#[global] Instance to_v8_string : ToV8 string :=
  λ _ src, String_New src (to_int (Z.of_nat (String.length src))).

#[global] Instance to_v8_char_ptr : ToV8 char_ptr :=
  λ _ src, String_New (match chars src with Some p => p | None => EmptyString end) (-1).

#[global] Instance to_v8_int32 : ToV8 Z := λ _ src, Int32 src.

#[global] Instance to_v8_uint32 : ToV8 N := λ _ src, Uint32 (Z.of_N src).

#[global] Instance to_v8_bool : ToV8 bool := λ _ src, Boolean src.

#[global] Instance to_v8_enum : ToV8 enum_value := λ _ src, Int32 (ordinal src).

#[global] Instance to_v8_class_ptr (T : ty) : ToV8 (class_ptr T) :=
  λ w src, find T (address src) w.

#[global] Instance to_v8_class_ref (T : ty) : ToV8 (class_ref T) :=
  λ w src, to_v8 w (ClassPtr (T:=T) (referent src)).

(** The loop of the range overloads: [idx] is a [uint32_t]. *)
Fixpoint fill `{ToV8 A} (w : world) (idx : Z) (src : list A)
    (result : list (option value)) : list (option value) :=
  match src with
  | [] => result
  | x :: rest => fill w (to_uint32 (idx + 1)) rest (Array_Set idx (to_v8 w x) result)
  end.

(** The length the random-access overload hands to [v8::Array::New]. *)
Definition presized `{ToV8 A} (src : list A) : list (option value) :=
  Array_New (to_int (Z.of_nat (length src))).

Definition to_v8_random_access `{ToV8 A} (w : world) (src : list A) : value :=
  Array (fill w 0 src (presized src)).

Definition to_v8_forward `{ToV8 A} (w : world) (src : list A) : value :=
  Array (fill w 0 src (Array_New 0)).

(** [std::vector<T>] *)
#[global] Instance to_v8_vector `{ToV8 A} : ToV8 (list A) :=
  λ w src, to_v8_random_access w src.

(** One iteration of the [std::map] loop:
    [result->Set(to_v8(it->first), to_v8(it->second))]. *)
Definition store `{ToName, ToV8 K, ToV8 V} (w : world)
    (result : list (string * value)) (it : K * V) : list (string * value) :=
  Object_Set (to_v8 w (fst it)) (to_v8 w (snd it)) result.

(** [std::map<Key, Value, Less, Alloc>] *)
#[global] Instance to_v8_map `{ToName, ToV8 K, ToV8 V} : ToV8 (std_map K V) :=
  λ w src, Object (fold_left (store w) (entries src) Object_New).

(** One naming, for concrete conversions: a string key names the property
    by its characters; no other key is given a name of its own. *)
Definition string_name : ToName :=
  λ key,
    match key with
    | Str s => s
    | _ => EmptyString
    end.

(** The property name a native key ends up under. *)
Definition name_of `{ToName, ToV8 K} (w : world) (k : K) : string :=
  to_name (to_v8 w k).

(** The elements of [src], each converted, in order. *)
Definition converted `{ToV8 A} (w : world) (src : list A) : list (option value) :=
  (λ x, Some (to_v8 w x)) <$> src.

(** [result] is an array as long as [src] whose slot [i] holds the
    conversion of the [i]-th element of [src]. *)
Definition elementwise `{ToV8 A} (w : world) (src : list A) (result : value) : Prop :=
  ∃ elems,
    result = Array elems
    ∧ length elems = length src
    ∧ ∀ i x, src !! i = Some x → elems !! i = Some (Some (to_v8 w x)).

(** A [std::vector<int32_t>] of [2^32 + 1] elements: zeros, then a one. *)
Definition overlong : list Z := replicate (Z.to_nat (2 ^ 32)) 0%Z ++ [1%Z].

(** ** Invariants of the registry *)

(** Every entry of the global table lies in the instance set of some class. *)
Definition table_covered (w : world) : Prop :=
  ∀ o, o ∈ dom (global_registry_objects_ w) → ∃ T, o ∈ instances T w.

(** Global layout, each address used at the class [owner] gives it: the
    instance set of a class holds exactly the table entries of that class. *)
Definition instances_track (owner : addr → ty) (w : world) : Prop :=
  ∀ T o, o ∈ instances T w ↔ owner o = T ∧ o ∈ dom (global_registry_objects_ w).

(** Per-type layout, same histories: a table holds addresses of its own
    class only. *)
Definition tables_owned (owner : addr → ty) (w : world) : Prop :=
  ∀ T o, o ∈ dom (items_ w !!! T) → owner o = T.

(** The handles a history registers, and the handles a trace disposes. *)
Definition added_handles (cs : list call) : list persistent :=
  flat_map (λ c, match c with CallAdd _ _ h => [h] | _ => [] end) cs.

Definition disposed_handles (tr : list event) : list persistent :=
  flat_map (λ e, match e with Dispose h => [h] | _ => [] end) tr.

(** [T] at [o] and [T'] at [o'] name the same table slot. *)
Definition same_slot (w : world) (T : ty) (o : addr) (T' : ty) (o' : addr) : Prop :=
  o = o' ∧ (V8PP_USE_GLOBAL_OBJECTS_REGISTRY w = true ∨ T = T').

(** What a history has established about a state: every stored handle was
    registered at its address, every disposed handle was registered, every
    callback call was asked for, and no handle is both stored and disposed,
    stored in two slots, or disposed twice. *)
Definition justified (past : list call) (w : world) : Prop :=
  (∀ T o h, items T w !! o = Some h → ∃ T', CallAdd T' o h ∈ past)
  ∧ (∀ h, Dispose h ∈ trace w → h ∈ added_handles past)
  ∧ (∀ f T o, Destroy f T o ∈ trace w → CallRemove T o (Some f) ∈ past).

Definition disposed_once (w : world) : Prop :=
  NoDup (disposed_handles (trace w))
  ∧ (∀ T o h, items T w !! o = Some h → h ∉ disposed_handles (trace w))
  ∧ (∀ T o T' o' h,
       items T w !! o = Some h → items T' w !! o' = Some h → same_slot w T o T' o').

(** The call [c] writes to the table slot that class [T] reads at [o]. *)
Definition hits (global : bool) (T : ty) (o : addr) (c : call) : bool :=
  bool_decide (call_addr c = o) && (global || bool_decide (call_ty c = T)).

(** One table slot as a cell: an [add] that hits it fills it when it is
    free, a [remove] that hits it frees it. *)
Fixpoint slot_after (global : bool) (T : ty) (o : addr) (cs : list call)
    (slot : option persistent) : option persistent :=
  match cs with
  | [] => slot
  | c :: rest =>
      slot_after global T o rest
        (if hits global T o c then
           match c with
           | CallAdd _ _ h => match slot with Some _ => slot | None => Some h end
           | CallRemove _ _ _ => None
           | CallFind _ _ => slot
           end
         else slot)
  end.

(** * The registry *)

(** Both layouts at once: split the state, decide the switch, unfold. *)
Ltac world_cases w :=
  destruct w as [[] tables glob insts tr];
  unfold remove, add, find, pending, items, set_items, instances, set_instances, emit;
  simpl.

Lemma items_global T w :
  V8PP_USE_GLOBAL_OBJECTS_REGISTRY w = true → items T w = global_registry_objects_ w.
Proof. unfold items. by intros ->. Qed.

Lemma find_items T o w :
  find T o w = match items T w !! o with Some h => Persistent h | None => Empty end.
Proof. done. Qed.

Lemma unordered_map_insert_lookup k v m :
  unordered_map_insert k v m !! k = Some (default v (m !! k)).
Proof.
  unfold unordered_map_insert. destruct (m !! k) eqn:E; simpl; [done|].
  apply lookup_insert_eq.
Qed.

Lemma unordered_map_insert_lookup_ne k k' v m :
  k ≠ k' → unordered_map_insert k v m !! k' = m !! k'.
Proof.
  intros Hne. unfold unordered_map_insert. destruct (m !! k); [done|].
  by apply lookup_insert_ne.
Qed.

(** ** add *)

Lemma add_flag T o h w :
  V8PP_USE_GLOBAL_OBJECTS_REGISTRY (add T o h w) = V8PP_USE_GLOBAL_OBJECTS_REGISTRY w.
Proof. by world_cases w. Qed.

Lemma add_trace T o h w : trace (add T o h w) = trace w.
Proof. by world_cases w. Qed.

Lemma add_items T o h w :
  items T (add T o h w) = unordered_map_insert o h (items T w).
Proof. world_cases w; [done|]. by rewrite lookup_total_insert_eq. Qed.

Lemma add_items_other T T' o h w :
  V8PP_USE_GLOBAL_OBJECTS_REGISTRY w = false → T ≠ T' →
  items T' (add T o h w) = items T' w.
Proof. world_cases w; [done|]. intros _ Hne. by rewrite lookup_total_insert_ne. Qed.

Lemma add_global T o h w :
  V8PP_USE_GLOBAL_OBJECTS_REGISTRY w = true →
  global_registry_objects_ (add T o h w)
  = unordered_map_insert o h (global_registry_objects_ w).
Proof.
  intros Hg. rewrite <- (items_global T (add T o h w)) by (by rewrite add_flag).
  by rewrite add_items, items_global.
Qed.

(** ** remove *)

Lemma remove_flag T o d w :
  V8PP_USE_GLOBAL_OBJECTS_REGISTRY (remove T o d w) = V8PP_USE_GLOBAL_OBJECTS_REGISTRY w.
Proof. world_cases w; repeat case_match; done. Qed.

Lemma remove_items T o d w :
  items T (remove T o d w) = delete o (items T w).
Proof.
  world_cases w.
  - destruct (glob !! o) eqn:E; [destruct d|]; simpl; try done.
    by rewrite delete_id.
  - destruct ((tables !!! T) !! o) eqn:E; [destruct d|]; simpl;
      rewrite ?lookup_total_insert_eq; try done.
    by rewrite delete_id.
Qed.

Lemma remove_items_other T T' o d w :
  V8PP_USE_GLOBAL_OBJECTS_REGISTRY w = false → T ≠ T' →
  items T' (remove T o d w) = items T' w.
Proof.
  world_cases w; [done|]. intros _ Hne.
  destruct ((tables !!! T) !! o); [destruct d|]; simpl;
    by rewrite ?lookup_total_insert_ne.
Qed.

Lemma remove_global T o d w :
  V8PP_USE_GLOBAL_OBJECTS_REGISTRY w = true →
  global_registry_objects_ (remove T o d w) = delete o (global_registry_objects_ w).
Proof.
  intros Hg. rewrite <- (items_global T (remove T o d w)) by (by rewrite remove_flag).
  by rewrite remove_items, items_global.
Qed.

Lemma remove_trace T o d w :
  trace (remove T o d w) =
  trace w ++ match items T w !! o with
             | Some h => removal_events T d (o, h)
             | None => []
             end.
Proof.
  world_cases w.
  - destruct (glob !! o) eqn:E; [destruct d|]; simpl;
      rewrite <- ?app_assoc, ?app_nil_r; done.
  - destruct ((tables !!! T) !! o) eqn:E; [destruct d|]; simpl;
      rewrite <- ?app_assoc, ?app_nil_r; done.
Qed.

Lemma remove_instances T o d w :
  V8PP_USE_GLOBAL_OBJECTS_REGISTRY w = true →
  instances T (remove T o d w) = instances T w ∖ {[o]}.
Proof.
  world_cases w; [|done]. intros _.
  destruct (glob !! o); [destruct d|]; simpl; by rewrite lookup_total_insert_eq.
Qed.

Lemma remove_unregistered_items T T' o d w :
  items T w !! o = None → items T' (remove T o d w) = items T' w.
Proof. world_cases w; intros ->; done. Qed.

Create Rewrite HintDb registry.
#[local] Hint Rewrite add_flag add_trace remove_flag : registry.

(** ** find, add and remove on one object *)

(** The class [T'] writes to the table that [T] reads: always in the global
    layout, for [T' = T] in the per-type layout. *)
Lemma add_items_any T T' o h w :
  items T (add T' o h w) =
  if decide (V8PP_USE_GLOBAL_OBJECTS_REGISTRY w = true ∨ T = T')
  then unordered_map_insert o h (items T w)
  else items T w.
Proof.
  destruct (V8PP_USE_GLOBAL_OBJECTS_REGISTRY w) eqn:Hg.
  - rewrite decide_True by (by left).
    rewrite !(items_global T), add_global by (by rewrite ?add_flag). done.
  - destruct (decide (T = T')) as [->|Hne].
    + rewrite decide_True by (by right). apply add_items.
    + rewrite decide_False by (intros [?|?]; congruence).
      by apply add_items_other.
Qed.

Lemma remove_items_any T T' o d w :
  items T (remove T' o d w) =
  if decide (V8PP_USE_GLOBAL_OBJECTS_REGISTRY w = true ∨ T = T')
  then delete o (items T w)
  else items T w.
Proof.
  destruct (V8PP_USE_GLOBAL_OBJECTS_REGISTRY w) eqn:Hg.
  - rewrite decide_True by (by left).
    rewrite !(items_global T), remove_global by (by rewrite ?remove_flag). done.
  - destruct (decide (T = T')) as [->|Hne].
    + rewrite decide_True by (by right). apply remove_items.
    + rewrite decide_False by (intros [?|?]; congruence).
      by apply remove_items_other.
Qed.

(** C1: [find(o)] returns a non-empty handle exactly when [o] is registered;
    [find] leaves the state as it was; [add] registers its object and
    [remove] unregisters it, in the table they write to, and neither touches
    the registration of another object; and [to_v8] of a class pointer is
    that lookup, so an unregistered pointer converts to the empty handle. *)
Theorem find_iff_registered :
  (∀ T o w, find T o w ≠ Empty ↔ registered T o w)
  ∧ (∀ T o w, fst (exec (CallFind T o) w) = w)
  ∧ (∀ T T' o h w o',
       registered T o' (add T' o h w) ↔
       (o' = o ∧ (V8PP_USE_GLOBAL_OBJECTS_REGISTRY w = true ∨ T = T'))
       ∨ registered T o' w)
  ∧ (∀ T T' o d w o',
       registered T o' (remove T' o d w) ↔
       ¬ (o' = o ∧ (V8PP_USE_GLOBAL_OBJECTS_REGISTRY w = true ∨ T = T'))
       ∧ registered T o' w)
  ∧ (∀ T (src : class_ptr T) w, to_v8 w src = find T (address src) w)
  ∧ (∀ T (src : class_ptr T) w, ¬ registered T (address src) w → to_v8 w src = Empty).
Proof.
  assert (Hfind : ∀ T o w, find T o w ≠ Empty ↔ registered T o w).
  { intros T o w. unfold registered. rewrite elem_of_dom, find_items.
    destruct (items T w !! o) as [h|]; [|by split; [|intros [? ?]]].
    split; [by eexists|done]. }
  split; [done|]. split; [done|]. split; [|split; [|split]].
  - intros T T' o h w o'. unfold registered. rewrite add_items_any, !elem_of_dom.
    case_decide as Hsame; [|tauto].
    destruct (decide (o' = o)) as [->|Hne].
    + rewrite unordered_map_insert_lookup. split; [by left|by eexists].
    + rewrite unordered_map_insert_lookup_ne by done.
      split; [by right | by intros [[? ?]|?]].
  - intros T T' o d w o'. unfold registered. rewrite remove_items_any.
    case_decide as Hsame; [|tauto].
    rewrite dom_delete_L, elem_of_difference, elem_of_singleton. tauto.
  - done.
  - intros T src w Hnot. change (to_v8 w src) with (find T (address src) w).
    unfold registered in Hnot. apply not_elem_of_dom in Hnot.
    by rewrite find_items, Hnot.
Qed.

(** C3 (as amended): a second [add] for the same object changes nothing in
    the table, so [find] returns what it returned after the first [add]:
    the first handle, when the object was unregistered before. *)
Theorem add_twice_keeps_first T o h1 h2 w :
  items T (add T o h2 (add T o h1 w)) = items T (add T o h1 w)
  ∧ find T o (add T o h2 (add T o h1 w)) = find T o (add T o h1 w)
  ∧ (items T w !! o = None →
     find T o (add T o h2 (add T o h1 w)) = Persistent h1).
Proof.
  assert (Hin : is_Some (unordered_map_insert o h1 (items T w) !! o)).
  { rewrite unordered_map_insert_lookup. by eexists. }
  assert (Hsame : items T (add T o h2 (add T o h1 w)) = items T (add T o h1 w)).
  { rewrite !add_items. destruct Hin as [h Hh].
    unfold unordered_map_insert at 1. by rewrite Hh. }
  split; [done|]. split.
  - by rewrite !find_items, Hsame.
  - intros Hfree.
    by rewrite find_items, Hsame, add_items, unordered_map_insert_lookup, Hfree.
Qed.

Lemma add_twice_witness :
  find 1%N 100%N (add 1%N 100%N 8%N (add 1%N 100%N 7%N (startup false))) = Persistent 7%N.
Proof.
  apply (add_twice_keeps_first 1%N 100%N 7%N 8%N (startup false)). reflexivity.
Defined.

(** C3 as stated fails: after [add(100, 7)] and [add(100, 8)] the lookup
    does not return handle 8. *)
Lemma second_add_does_not_supersede :
  find 1%N 100%N (add 1%N 100%N 8%N (add 1%N 100%N 7%N (startup false))) ≠ Persistent 8%N.
Proof. vm_compute. discriminate. Qed.

(** C4: [remove] of an object registered with handle [h] emits the disposal
    of [h] and then, for a non-null callback, exactly one call
    [destroy(o)], nothing else; the entry is erased and [find(o)] is empty
    afterwards. *)
Theorem remove_registered T o h destroy w :
  items T w !! o = Some h →
  trace (remove T o destroy w) =
    trace w ++ Dispose h :: match destroy with
                            | Some f => [Destroy f T o]
                            | None => []
                            end
  ∧ items T (remove T o destroy w) = delete o (items T w)
  ∧ find T o (remove T o destroy w) = Empty
  ∧ ∀ f, count_occ event_eq_dec
           (drop (length (trace w)) (trace (remove T o destroy w))) (Destroy f T o)
         = if decide (destroy = Some f) then 1%nat else 0%nat.
Proof.
  intros Hreg.
  assert (Htr : trace (remove T o destroy w) =
    trace w ++ Dispose h :: match destroy with
                            | Some f => [Destroy f T o]
                            | None => []
                            end).
  { by rewrite remove_trace, Hreg. }
  split; [done|]. split; [apply remove_items|]. split.
  - by rewrite find_items, remove_items, lookup_delete_eq.
  - intros f. rewrite Htr, drop_app_length.
    destruct destroy as [g|]; cbn [count_occ];
      repeat destruct (event_eq_dec _ _); case_decide; congruence.
Qed.

Lemma remove_registered_witness :
  trace (remove 1%N 2%N (Some 9%N) two_objects) = [Dispose 20%N; Destroy 9%N 1%N 2%N]
  ∧ find 1%N 2%N (remove 1%N 2%N (Some 9%N) two_objects) = Empty.
Proof.
  destruct (remove_registered 1%N 2%N 20%N (Some 9%N) two_objects)
    as (Htr & _ & Hfind & _); [reflexivity|].
  split; [exact Htr | exact Hfind].
Defined.

(** C6: [remove] of an unregistered object leaves every table and its size
    as they were and emits nothing: no disposal, no callback. *)
Theorem remove_unregistered T o destroy w :
  items T w !! o = None →
  size (items T (remove T o destroy w)) = size (items T w)
  ∧ trace (remove T o destroy w) = trace w
  ∧ ∀ T', items T' (remove T o destroy w) = items T' w.
Proof.
  intros Hfree. split; [|split].
  - rewrite remove_unregistered_items by done. done.
  - rewrite remove_trace, Hfree. apply app_nil_r.
  - intros T'. by apply remove_unregistered_items.
Qed.

Lemma remove_unregistered_witness :
  size (items 1%N (remove 1%N 4%N (Some 9%N) two_objects)) = size (items 1%N two_objects)
  ∧ trace (remove 1%N 4%N (Some 9%N) two_objects) = trace two_objects
  ∧ ∀ T', items T' (remove 1%N 4%N (Some 9%N) two_objects) = items T' two_objects.
Proof. apply (remove_unregistered 1%N 4%N (Some 9%N) two_objects). reflexivity. Defined.

(** C10: in the global layout [remove] takes the object out of the instance
    set of its class whatever the table holds; when the table has no entry
    for it, the table and the trace stay as they were. *)
Theorem remove_erases_instance T o destroy w :
  V8PP_USE_GLOBAL_OBJECTS_REGISTRY w = true →
  (o ∉ instances T (remove T o destroy w))
  ∧ (items T w !! o = None →
     global_registry_objects_ (remove T o destroy w) = global_registry_objects_ w
     ∧ trace (remove T o destroy w) = trace w).
Proof.
  intros Hg. split.
  - rewrite remove_instances by done.
    rewrite elem_of_difference, elem_of_singleton. tauto.
  - intros Hfree. split.
    + by rewrite remove_global, <- (items_global T), delete_id.
    + rewrite remove_trace, Hfree. apply app_nil_r.
Qed.

Lemma remove_erases_instance_witness :
  100%N ∈ instances 2%N stale_instance
  ∧ items 2%N stale_instance !! 100%N = None
  ∧ (100%N ∉ instances 2%N (remove 2%N 100%N (Some 9%N) stale_instance))
  ∧ trace (remove 2%N 100%N (Some 9%N) stale_instance) = trace stale_instance.
Proof.
  destruct (remove_erases_instance 2%N 100%N (Some 9%N) stale_instance)
    as [Hgone Hnoop]; [reflexivity|].
  destruct Hnoop as [_ Htr]; [reflexivity|].
  split; [|split; [reflexivity|split; [exact Hgone | exact Htr]]].
  apply (bool_decide_unpack _). vm_compute. exact I.
Defined.

(** ** remove_all *)

Lemma registered_entries_lookup T w x :
  registered_entries T w !! x =
  if decide (x ∈ pending T w) then items T w !! x else None.
Proof.
  unfold registered_entries, pending, items.
  destruct (V8PP_USE_GLOBAL_OBJECTS_REGISTRY w).
  - rewrite map_lookup_filter.
    destruct (global_registry_objects_ w !! x) as [h|]; simpl; [|by case_decide].
    case_decide.
    + by rewrite option_guard_True.
    + by rewrite option_guard_False.
  - case_decide as Hx; [done|]. by apply not_elem_of_dom.
Qed.

Lemma remove_pending T o d w :
  pending T (remove T o d w) = pending T w ∖ {[o]}.
Proof.
  unfold pending. rewrite remove_flag.
  destruct (V8PP_USE_GLOBAL_OBJECTS_REGISTRY w) eqn:Hg.
  - by apply remove_instances.
  - rewrite remove_items. apply dom_delete_L.
Qed.

Lemma count_destroy f T x (l : list (addr * persistent)) :
  NoDup l.*1 →
  count_occ event_eq_dec (concat (removal_events T (Some f) <$> l)) (Destroy f T x)
  = if decide (x ∈ l.*1) then 1%nat else 0%nat.
Proof.
  induction l as [|[o h] l IH]; intros Hnd.
  - rewrite decide_False; [done|]. apply not_elem_of_nil.
  - rewrite !fmap_cons in *. apply NoDup_cons in Hnd as [Hfresh Hnd].
    cbn [concat removal_events fst snd app count_occ].
    destruct (event_eq_dec (Dispose h) (Destroy f T x)) as [|_]; [done|].
    rewrite (IH Hnd).
    destruct (event_eq_dec (Destroy f T o) (Destroy f T x)) as [E|E].
    + assert (o = x) as -> by congruence.
      rewrite decide_False by done.
      rewrite decide_True; [done|]. apply list_elem_of_here.
    + assert (o ≠ x) by congruence.
      destruct (decide (x ∈ l.*1)) as [Hin|Hout].
      * rewrite decide_True; [done|]. by apply list_elem_of_further.
      * rewrite decide_False; [done|].
        intros [?|?]%elem_of_cons; congruence.
Qed.

Lemma elem_of_keys (m : gmap addr persistent) x :
  x ∈ (map_to_list m).*1 ↔ x ∈ dom m.
Proof.
  rewrite elem_of_dom, list_elem_of_fmap. split.
  - intros [[k v] [-> Hin]]. exists v. by apply elem_of_map_to_list.
  - intros [v Hv]. exists (x, v). split; [done|]. by apply elem_of_map_to_list.
Qed.

Lemma first_element_spec : begin_spec first_element.
Proof.
  intros s. unfold first_element.
  destruct (elements s) as [|x l] eqn:E; simpl.
  - by apply elements_empty_inv in E; apply leibniz_equiv.
  - apply elem_of_elements. rewrite E. apply list_elem_of_here.
Qed.

Section RemoveAll.
Variable begin_ : gset addr → option addr.
Hypothesis begin_ok : begin_spec begin_.
Variables (T : ty) (destroy : option fnptr).

(** One iteration removes the chosen object from the drained container. *)
Lemma pending_shrinks w o :
  o ∈ pending T w → S (size (pending T (remove T o destroy w))) = size (pending T w).
Proof.
  intros Ho. apply singleton_subseteq_l in Ho.
  pose proof (subseteq_size _ _ Ho) as Hle. rewrite size_singleton in Hle.
  rewrite remove_pending, size_difference, size_singleton by done. lia.
Qed.

(** The loop, by induction on the fuel: it ends, the drained container is
    empty, and each registered entry was removed once. *)
Lemma remove_all_spec fuel :
  ∀ w, (size (pending T w) < fuel)%nat →
  ∃ w' l,
    remove_all begin_ fuel T destroy w = Some w'
    ∧ pending T w' = ∅
    ∧ l ≡ₚ map_to_list (registered_entries T w)
    ∧ trace w' = trace w ++ concat (removal_events T destroy <$> l)
    ∧ ∀ x, items T w' !! x = if decide (x ∈ pending T w) then None else items T w !! x.
Proof.
  induction fuel as [|fuel IH]; intros w Hsz; [lia|].
  simpl. pose proof (begin_ok (pending T w)) as Hpick.
  destruct (begin_ (pending T w)) as [o|]; last first.
  { exists w, []. split; [done|]. split; [done|]. split; [|split].
    - assert (E : registered_entries T w = ∅).
      { apply map_eq. intros x. rewrite registered_entries_lookup, Hpick, lookup_empty.
        by rewrite decide_False by apply not_elem_of_empty. }
      by rewrite E, map_to_list_empty.
    - simpl. by rewrite app_nil_r.
    - intros x. rewrite Hpick. by rewrite decide_False by apply not_elem_of_empty. }
  set (w1 := remove T o destroy w).
  assert (Hp1 : ∀ x, x ∈ pending T w1 ↔ x ∈ pending T w ∧ x ≠ o).
  { intros x. unfold w1. rewrite remove_pending, elem_of_difference, elem_of_singleton.
    tauto. }
  assert (Hsz1 : (size (pending T w1) < fuel)%nat).
  { pose proof (pending_shrinks w o Hpick) as Hs. fold w1 in Hs. lia. }
  destruct (IH w1 Hsz1) as (w' & l' & Hrun & Hemp & Hperm & Htr & Hlk).
  assert (Hit1 : items T w1 = delete o (items T w)) by apply remove_items.
  assert (Hkeep : ∀ x, items T w' !! x
                       = if decide (x ∈ pending T w) then None else items T w !! x).
  { intros x. rewrite Hlk, Hit1.
    destruct (decide (x = o)) as [->|Hne].
    - rewrite lookup_delete_eq, (decide_True _ _ Hpick). by case_decide.
    - rewrite lookup_delete_ne by done.
      destruct (decide (x ∈ pending T w)) as [Hx|Hx].
      + rewrite decide_True; [done|]. by apply Hp1.
      + rewrite decide_False; [done|]. intros ?%Hp1. tauto. }
  assert (Hrest : ∀ x, x ≠ o → registered_entries T w1 !! x = registered_entries T w !! x).
  { intros x Hne. rewrite !registered_entries_lookup, Hit1, lookup_delete_ne by done.
    destruct (decide (x ∈ pending T w)) as [Hx|Hx].
    - rewrite decide_True; [done|]. by apply Hp1.
    - rewrite decide_False; [done|]. intros ?%Hp1. tauto. }
  assert (Hgone : registered_entries T w1 !! o = None).
  { rewrite registered_entries_lookup, Hit1, lookup_delete_eq. by case_decide. }
  destruct (items T w !! o) as [h|] eqn:Ho.
  - exists w', ((o, h) :: l'). split; [done|]. split; [done|]. split; [|split; [|done]].
    + assert (E : registered_entries T w = <[o:=h]> (registered_entries T w1)).
      { apply map_eq. intros x. destruct (decide (x = o)) as [->|Hne].
        - rewrite lookup_insert_eq, registered_entries_lookup, Ho.
          by rewrite decide_True.
        - rewrite lookup_insert_ne by done. symmetry. by apply Hrest. }
      rewrite E, map_to_list_insert by done. by constructor.
    + rewrite Htr. unfold w1. rewrite remove_trace, Ho.
      rewrite fmap_cons. simpl concat. by rewrite <- app_assoc.
  - exists w', l'. split; [done|]. split; [done|]. split; [|split; [|done]].
    + assert (E : registered_entries T w = registered_entries T w1).
      { apply map_eq. intros x. destruct (decide (x = o)) as [->|Hne].
        - rewrite Hgone, registered_entries_lookup, Ho. by case_decide.
        - symmetry. by apply Hrest. }
      by rewrite E.
    + rewrite Htr. unfold w1. by rewrite remove_trace, Ho, app_nil_r.
Qed.

(** C5: with enough fuel for the entries at call start, [remove_all] returns;
    the drained container and the table of the class are empty afterwards;
    the new events are, for the entries registered at call start in some
    order, the disposal of the handle followed by the callback on the
    object, so that the callback runs exactly once per entry. *)
Theorem remove_all_drains fuel w :
  (size (pending T w) < fuel)%nat →
  ∃ w' l,
    remove_all begin_ fuel T destroy w = Some w'
    ∧ pending T w' = ∅
    ∧ registered_entries T w' = ∅
    ∧ (V8PP_USE_GLOBAL_OBJECTS_REGISTRY w = false → items T w' = ∅)
    ∧ (∀ x, x ∈ pending T w → find T x w' = Empty)
    ∧ l ≡ₚ map_to_list (registered_entries T w)
    ∧ trace w' = trace w ++ concat (removal_events T destroy <$> l)
    ∧ (∀ f x, destroy = Some f →
         count_occ event_eq_dec (drop (length (trace w)) (trace w')) (Destroy f T x)
         = if decide (x ∈ dom (registered_entries T w)) then 1%nat else 0%nat).
Proof.
  intros Hfuel.
  destruct (remove_all_spec fuel w Hfuel) as (w' & l & Hrun & Hemp & Hperm & Htr & Hlk).
  exists w', l. split; [done|]. split; [done|].
  assert (Hnone : registered_entries T w' = ∅).
  { apply map_eq. intros x. rewrite registered_entries_lookup, Hemp, lookup_empty.
    by rewrite decide_False by apply not_elem_of_empty. }
  split; [done|]. split; [|split; [|split; [done|split; [done|]]]].
  - intros Hg. apply map_eq. intros x. rewrite Hlk, lookup_empty.
    case_decide as Hx; [done|]. apply not_elem_of_dom.
    unfold pending in Hx. by rewrite Hg in Hx.
  - intros x Hx. rewrite find_items, Hlk. by rewrite decide_True.
  - intros f x Hf. rewrite Htr, drop_app_length, Hf.
    rewrite count_destroy.
    + destruct (decide (x ∈ l.*1)) as [Hin|Hout].
      * rewrite decide_True; [done|]. apply elem_of_keys. by rewrite <- Hperm.
      * rewrite decide_False; [done|]. intros Hin. apply Hout.
        rewrite Hperm. by apply elem_of_keys.
    + rewrite Hperm. apply NoDup_fst_map_to_list.
Qed.

End RemoveAll.

Lemma remove_all_witness :
  ∃ w',
    remove_all first_element 3 1%N (Some 9%N) two_objects = Some w'
    ∧ pending 1%N w' = ∅
    ∧ registered_entries 1%N w' = ∅.
Proof.
  destruct (remove_all_drains first_element first_element_spec 1%N (Some 9%N) 3 two_objects)
    as (w' & l & Hrun & Hemp & Hnone & _).
  - vm_compute. lia.
  - exists w'. split; [exact Hrun|]. split; [exact Hemp | exact Hnone].
Defined.

(** ** Concrete runs *)

Example find_after_add :
  find 1%N 100%N (add 1%N 100%N 7%N (startup false)) = Persistent 7%N.
Proof. reflexivity. Qed.

Example find_after_remove :
  observe true [CallAdd 1%N 100%N 7%N; CallRemove 1%N 100%N (Some 5%N); CallFind 1%N 100%N]
  = ([Empty], [Dispose 7%N; Destroy 5%N 1%N 100%N]).
Proof. reflexivity. Qed.

Example remove_all_trace :
  trace <$> remove_all first_element 3 1%N (Some 9%N) two_objects
  = Some [Dispose 20%N; Destroy 9%N 1%N 2%N; Dispose 30%N; Destroy 9%N 1%N 3%N].
Proof. vm_compute. reflexivity. Qed.

Example remove_all_out_of_fuel :
  remove_all first_element 2 1%N (Some 9%N) two_objects = None.
Proof. vm_compute. reflexivity. Qed.

(** * The two layouts *)

Section Layouts.
Variable owner : addr → ty.

Lemma startup_agree : layouts_agree owner (startup false) (startup true).
Proof. by repeat split. Qed.

(** One call keeps the layouts in step and returns the same in both. *)
Lemma exec_agree c wp wg :
  call_ty c = owner (call_addr c) →
  layouts_agree owner wp wg →
  snd (exec c wp) = snd (exec c wg)
  ∧ layouts_agree owner (fst (exec c wp)) (fst (exec c wg)).
Proof.
  intros Hty (Hp & Hg & Htr & Hit).
  destruct c as [T o h|T o d|T o]; simpl in *; subst T.
  - split; [done|]. repeat split; autorewrite with registry; try done.
    intros x. rewrite add_global by done.
    destruct (decide (owner x = owner o)) as [E|E].
    + rewrite E, add_items.
      destruct (decide (x = o)) as [->|Hne].
      * by rewrite !unordered_map_insert_lookup, Hit.
      * rewrite !unordered_map_insert_lookup_ne by done. by rewrite <- E, Hit.
    + rewrite add_items_other by done.
      rewrite unordered_map_insert_lookup_ne by congruence. apply Hit.
  - split; [done|]. repeat split; autorewrite with registry; try done.
    + rewrite !remove_trace, Htr, (items_global _ wg), Hit by done. done.
    + intros x. rewrite remove_global by done.
      destruct (decide (owner x = owner o)) as [E|E].
      * rewrite E, remove_items.
        destruct (decide (x = o)) as [->|Hne].
        -- by rewrite !lookup_delete_eq.
        -- rewrite !lookup_delete_ne by done. by rewrite <- E, Hit.
      * rewrite remove_items_other by done.
        rewrite lookup_delete_ne by congruence. apply Hit.
  - split; [|done]. rewrite !find_items, (items_global _ wg), Hit by done. done.
Qed.

Lemma run_agree cs :
  single_typed owner cs → ∀ wp wg,
  layouts_agree owner wp wg →
  snd (run cs wp) = snd (run cs wg)
  ∧ layouts_agree owner (fst (run cs wp)) (fst (run cs wg)).
Proof.
  induction 1 as [|c cs Hc Hcs IH]; intros wp wg Hagree; simpl; [done|].
  destruct (exec_agree c wp wg Hc Hagree) as [Hres Hnext].
  destruct (exec c wp) as [wp1 rp1], (exec c wg) as [wg1 rg1]. simpl in *.
  destruct (IH wp1 wg1 Hnext) as [Hres' Hnext'].
  destruct (run cs wp1) as [wp2 rp2], (run cs wg1) as [wg2 rg2]. simpl in *.
  by subst.
Qed.

(** C2 (as amended): for every sequence of [add], [remove] and [find] calls
    in which each address is used at a single class type, the per-type
    layout and the global layout return the same handles and emit the same
    disposals and callback calls. *)
Theorem layouts_observably_identical cs :
  single_typed owner cs → observe false cs = observe true cs.
Proof.
  intros Hcs. unfold observe.
  destruct (run_agree cs Hcs _ _ startup_agree) as [Hres (_ & _ & Htr & _)].
  destruct (run cs (startup false)) as [wp rp], (run cs (startup true)) as [wg rg].
  simpl in *. congruence.
Qed.

End Layouts.

Lemma layouts_witness :
  observe false [CallAdd 1%N 100%N 7%N; CallAdd 2%N 200%N 8%N; CallFind 2%N 200%N;
                 CallRemove 1%N 100%N (Some 5%N); CallFind 1%N 100%N]
  = observe true [CallAdd 1%N 100%N 7%N; CallAdd 2%N 200%N 8%N; CallFind 2%N 200%N;
                  CallRemove 1%N 100%N (Some 5%N); CallFind 1%N 100%N].
Proof.
  apply (layouts_observably_identical (λ o, if decide (o = 100%N) then 1%N else 2%N)).
  repeat constructor.
Defined.

(** C2 as stated fails: class 1 registers address 100 and class 2 looks the
    same address up; the per-type layout returns the empty handle, the
    global layout the handle of class 1. *)
Lemma layouts_differ_on_shared_address :
  observe false [CallAdd 1%N 100%N 7%N; CallFind 2%N 100%N]
  ≠ observe true [CallAdd 1%N 100%N 7%N; CallFind 2%N 100%N].
Proof. vm_compute. discriminate. Qed.

(** * Conversions *)

(** ** Strings *)

Lemma c_str_terminated (s rest : string) :
  Forall (λ c, c ≠ NUL) (list_ascii_of_string s) →
  c_str (s +:+ String NUL rest) = s.
Proof.
  induction s as [|c s IH]; intros Hs.
  - done.
  - apply Forall_cons in Hs as [Hc Hs]. simpl.
    destruct (decide (c = NUL)); [done|]. by rewrite IH.
Qed.

(** C9: the null [char const] pointer converts to the empty script string;
    a non-null pointer converts to the string of the characters it points
    to, that is, those before the terminator. *)
Theorem to_v8_char_ptr_null (w : world) :
  to_v8 w (CharPtr None) = Str EmptyString
  ∧ (∀ data, to_v8 w (CharPtr (Some data)) = Str (c_str data))
  ∧ (∀ s rest, Forall (λ c, c ≠ NUL) (list_ascii_of_string s) →
               to_v8 w (CharPtr (Some (s +:+ String NUL rest))) = Str s).
Proof.
  split; [done|]. split; [done|].
  intros s rest Hs. unfold to_v8, to_v8_char_ptr, String_New.
  cbn [chars]. rewrite decide_True by done. by rewrite c_str_terminated.
Qed.

(** ** Random-access ranges *)

Lemma to_int_small z : (0 ≤ z < 2 ^ 31)%Z → to_int z = z.
Proof. intros Hz. unfold to_int. rewrite Z.mod_small; lia. Qed.

Lemma to_uint32_small z : (0 ≤ z < 2 ^ 32)%Z → to_uint32 z = z.
Proof. intros Hz. unfold to_uint32. apply Z.mod_small. lia. Qed.

Lemma to_uint32_range z : (0 ≤ to_uint32 z < 2 ^ 32)%Z.
Proof. unfold to_uint32. apply Z.mod_pos_bound. lia. Qed.

Lemma presized_length `{ToV8 A} (src : list A) :
  (Z.of_nat (length src) < 2 ^ 31)%Z → presized src = replicate (length src) None.
Proof.
  intros Hlen. unfold presized, Array_New.
  rewrite to_int_small by lia. by rewrite Nat2Z.id.
Qed.

(** A store into the first hole after the filled part. *)
Lemma Array_Set_hole (filled : list (option value)) v n :
  Array_Set (Z.of_nat (length filled)) v (filled ++ None :: replicate n None)
  = (filled ++ [Some v]) ++ replicate n None.
Proof.
  unfold Array_Set. rewrite Nat2Z.id.
  rewrite decide_True by (rewrite length_app; simpl; lia).
  rewrite insert_app_r_alt, Nat.sub_diag by lia. simpl.
  by rewrite <- app_assoc.
Qed.

(** The loop on a pre-sized array, while the index does not wrap. *)
Lemma fill_presized `{ToV8 A} (w : world) (src : list A) :
  ∀ filled : list (option value),
  (Z.of_nat (length filled) + Z.of_nat (length src) < 2 ^ 32)%Z →
  fill w (Z.of_nat (length filled)) src (filled ++ replicate (length src) None)
  = filled ++ converted w src.
Proof.
  induction src as [|x rest IH]; intros filled Hlen; cbn [fill length replicate].
  - done.
  - cbn [length] in Hlen. rewrite Array_Set_hole.
    rewrite to_uint32_small by lia.
    replace (Z.of_nat (length filled) + 1)%Z
      with (Z.of_nat (length (filled ++ [Some (to_v8 w x)])))
      by (rewrite length_app; cbn [length]; lia).
    rewrite IH.
    + by rewrite <- app_assoc.
    + rewrite length_app. cbn [length]. lia.
Qed.

(** The loop over a concatenation; the index is taken modulo [2^32]. *)
Lemma fill_app `{ToV8 A} (w : world) (l1 l2 : list A) :
  ∀ idx result, (0 ≤ idx < 2 ^ 32)%Z →
  fill w idx (l1 ++ l2) result
  = fill w (to_uint32 (idx + Z.of_nat (length l1))) l2 (fill w idx l1 result).
Proof.
  induction l1 as [|x l1 IH]; intros idx result Hidx.
  - simpl. rewrite Z.add_0_r. by rewrite to_uint32_small.
  - cbn [app fill length]. rewrite IH by apply to_uint32_range.
    f_equal. unfold to_uint32.
    rewrite Zplus_mod_idemp_l. f_equal. lia.
Qed.

Lemma Array_Set_first v (elems : list (option value)) :
  Array_Set 0 v elems !! 0%nat = Some (Some v).
Proof.
  unfold Array_Set. change (Z.to_nat 0) with 0%nat.
  destruct elems as [|e elems]; reflexivity.
Qed.

Lemma overlong_zeros : Z.of_nat (length (replicate (Z.to_nat (2 ^ 32)) 0%Z)) = (2 ^ 32)%Z.
Proof. rewrite length_replicate. apply Z2Nat.id. lia. Qed.

(** After [2^32] stores the index is back at 0: the last element of
    [overlong] lands in slot 0. *)
Lemma overlong_wraps w (result : list (option value)) :
  fill w 0 overlong result !! 0%nat = Some (Some (Int32 1))
  ∧ overlong !! 0%nat = Some 0%Z.
Proof.
  unfold overlong. split.
  - rewrite fill_app by lia. rewrite Z.add_0_l, overlong_zeros.
    change (to_uint32 (2 ^ 32)) with 0%Z.
    cbn [fill]. apply Array_Set_first.
  - rewrite lookup_app_l by (rewrite length_replicate; lia).
    apply lookup_replicate_2. lia.
Qed.

(** At [2^31] elements the length no longer fits the [int] argument of
    [v8::Array::New]: the array is created without any slot. *)
Lemma presized_int_min :
  length (presized (replicate (Z.to_nat (2 ^ 31)) 0%Z)) = 0%nat.
Proof.
  unfold presized, Array_New. rewrite !length_replicate, Z2Nat.id by lia.
  change (to_int (2 ^ 31)) with (- 2 ^ 31)%Z. reflexivity.
Qed.

(** C7 (as amended): for a random-access range shorter than [2^31], the
    array is created with as many slots as the range has elements, and the
    result is an array of that length whose slot [i] holds the conversion of
    the [i]-th element; the vector [1, 2, 3] converts to the array of the
    converted 1, 2, 3. *)
Theorem to_v8_range_presized `{ToV8 A} (w : world) (src : list A) :
  (Z.of_nat (length src) < 2 ^ 31)%Z →
  length (presized src) = length src
  ∧ to_v8 w src = Array (converted w src)
  ∧ elementwise w src (to_v8 w src)
  ∧ to_v8 w [1%Z; 2%Z; 3%Z] = Array [Some (Int32 1); Some (Int32 2); Some (Int32 3)].
Proof.
  intros Hlen.
  assert (Hconv : to_v8 w src = Array (converted w src)).
  { unfold to_v8 at 1, to_v8_vector, to_v8_random_access.
    rewrite presized_length by done.
    by rewrite (fill_presized w src []) by (simpl; lia). }
  split; [|split; [done|split; [|done]]].
  - rewrite presized_length by done. apply length_replicate.
  - exists (converted w src). split; [done|]. unfold converted. split.
    + apply length_fmap.
    + intros i x Hx. by rewrite list_lookup_fmap, Hx.
Qed.

Lemma to_v8_range_witness :
  elementwise (startup false) [1%Z; 2%Z; 3%Z] (to_v8 (startup false) [1%Z; 2%Z; 3%Z]).
Proof.
  destruct (to_v8_range_presized (startup false) [1%Z; 2%Z; 3%Z]) as (_ & _ & Hall & _).
  - simpl. lia.
  - exact Hall.
Defined.

(** C7 as stated fails on a range of [2^32 + 1] elements: the result is not
    the array of the converted elements in order, because slot 0 holds the
    conversion of the last element. *)
Lemma to_v8_overlong :
  ¬ elementwise (startup false) overlong (to_v8 (startup false) overlong).
Proof.
  intros (elems & Hres & _ & Hall).
  destruct (overlong_wraps (startup false) (presized overlong)) as [Hlast Hfirst].
  apply Hall in Hfirst.
  change (to_v8 (startup false) overlong)
    with (Array (fill (startup false) 0 overlong (presized overlong))) in Hres.
  pose proof (f_equal (λ v, match v with Array e => e | _ => [] end) Hres) as E.
  cbv beta iota in E. rewrite E, Hfirst in Hlast. discriminate Hlast.
Qed.

(** ** Ordered maps *)

Lemma get_set_property_eq name v props :
  get_property name (set_property name v props) = Some v.
Proof.
  induction props as [|[n x] rest IH]; simpl.
  - by rewrite decide_True.
  - destruct (decide (n = name)) as [->|Hne]; simpl.
    + by rewrite decide_True.
    + by rewrite decide_False.
Qed.

Lemma get_set_property_ne name name' v props :
  name ≠ name' →
  get_property name' (set_property name v props) = get_property name' props.
Proof.
  intros Hne. induction props as [|[n x] rest IH]; simpl.
  - by rewrite decide_False.
  - destruct (decide (n = name)) as [->|Hn]; simpl.
    + by rewrite !decide_False.
    + destruct (decide (n = name')); [done|]. apply IH.
Qed.

Lemma set_property_names name v props :
  (set_property name v props).*1 =
  if decide (name ∈ props.*1) then props.*1 else props.*1 ++ [name].
Proof.
  induction props as [|[n x] rest IH]; cbn [set_property].
  - rewrite decide_False; [done|]. apply not_elem_of_nil.
  - destruct (decide (n = name)) as [->|Hn]; rewrite !fmap_cons; cbn [fst].
    + rewrite decide_True; [done|]. apply list_elem_of_here.
    + rewrite IH. destruct (decide (name ∈ rest.*1)) as [Hin|Hout].
      * rewrite decide_True; [done|]. by apply list_elem_of_further.
      * rewrite decide_False; [done|].
        intros [?|?]%elem_of_cons; congruence.
Qed.

Lemma set_property_NoDup name v props :
  NoDup props.*1 → NoDup (set_property name v props).*1.
Proof.
  intros Hnd. rewrite set_property_names. case_decide as Hin; [done|].
  apply NoDup_app. split; [done|]. split.
  - intros x Hx [->|[]%elem_of_nil]%elem_of_cons. done.
  - apply NoDup_singleton.
Qed.

Section MapConversion.
Context `{ToName, ToV8 K, ToV8 V} (w : world).

(** Entries under other names leave a property as it was. *)
Lemma fold_store_other name (l : list (K * V)) :
  ∀ acc, Forall (λ it, name_of w (fst it) ≠ name) l →
  get_property name (fold_left (store w) l acc) = get_property name acc.
Proof.
  induction l as [|it l IH]; intros acc Hall; simpl; [done|].
  inversion Hall as [|?? Hit Hrest]; subst.
  rewrite IH by done. unfold store, Object_Set.
  by apply get_set_property_ne.
Qed.

(** The last entry stored under a name decides the property. *)
Lemma fold_store_last (l1 l2 : list (K * V)) k v acc :
  Forall (λ it, name_of w (fst it) ≠ name_of w k) l2 →
  get_property (name_of w k) (fold_left (store w) (l1 ++ (k, v) :: l2) acc)
  = Some (to_v8 w v).
Proof.
  intros Hlater. rewrite fold_left_app. simpl.
  rewrite fold_store_other by done.
  unfold store at 1, Object_Set. simpl. apply get_set_property_eq.
Qed.

Lemma fold_store_NoDup (l : list (K * V)) :
  ∀ acc, NoDup acc.*1 → NoDup (fold_left (store w) l acc).*1.
Proof.
  induction l as [|it l IH]; intros acc Hnd; simpl; [done|].
  apply IH. by apply set_property_NoDup.
Qed.

(** C8: a [std::map] converts to an object whose property names are
    distinct; an entry decides the property of its converted key unless a
    later entry converts to the same name, so the later entry wins; a name
    no key converts to is absent; and, where a string key names the property
    by its characters, the map of "a" to 1 and "b" to 2 converts to the
    object with exactly the properties a = 1 and b = 2. *)
Theorem to_v8_map_properties (src : std_map K V) :
  ∃ props,
    to_v8 w src = Object props
    ∧ NoDup props.*1
    ∧ (∀ l1 k v l2,
         entries src = l1 ++ (k, v) :: l2 →
         Forall (λ it, name_of w (fst it) ≠ name_of w k) l2 →
         get_property (name_of w k) props = Some (to_v8 w v))
    ∧ (∀ name,
         Forall (λ it, name_of w (fst it) ≠ name) (entries src) →
         get_property name props = None)
    ∧ ((∀ s, to_name (Str s) = s) →
       to_v8 w (StdMap [("a"%string, 1%Z); ("b"%string, 2%Z)])
       = Object [("a"%string, Int32 1); ("b"%string, Int32 2)]).
Proof.
  exists (fold_left (store w) (entries src) Object_New).
  split; [reflexivity|]. split; [|split; [|split]].
  - apply fold_store_NoDup. constructor.
  - intros l1 k v l2 -> Hlater. by apply fold_store_last.
  - intros name Hnone. by rewrite fold_store_other.
  - intros Hname. unfold to_v8, to_v8_map. cbn [entries fold_left].
    unfold store, Object_Set, to_v8, to_v8_string, to_v8_int32, String_New.
    simpl. by rewrite !Hname.
Qed.

End MapConversion.

Lemma to_v8_map_witness :
  @to_v8 _ (@to_v8_map string_name _ _ _ _) (startup false)
         (StdMap [("a"%string, 1%Z); ("b"%string, 2%Z)])
  = Object [("a"%string, Int32 1); ("b"%string, Int32 2)].
Proof.
  destruct (@to_v8_map_properties string_name string _ Z _ (startup false)
              (StdMap [("a"%string, 1%Z); ("b"%string, 2%Z)]))
    as (props & _ & _ & _ & _ & Hexample).
  apply Hexample. reflexivity.
Defined.

(** ** Concrete conversions *)

Example int_narrowing : to_int (2 ^ 31) = (- 2 ^ 31)%Z ∧ to_uint32 (2 ^ 32) = 0%Z.
Proof. split; reflexivity. Qed.

Example string_with_terminator :
  to_v8 (startup false) (CharPtr (Some ("ab" +:+ String NUL "cd"))) = Str "ab".
Proof. reflexivity. Qed.

Example vector_of_strings :
  to_v8 (startup false) ["x"%string; "yz"%string] = Array [Some (Str "x"); Some (Str "yz")].
Proof. reflexivity. Qed.

Example store_past_the_end :
  Array_Set 2 (Boolean true) [Some (Int32 5)] = [Some (Int32 5); None; Some (Boolean true)].
Proof. reflexivity. Qed.

Example later_entry_wins :
  @to_v8 _ (@to_v8_map string_name _ _ _ _) (startup false)
         (StdMap [(CharPtr (Some "k"%string), 1%Z); (CharPtr (Some ("k" +:+ String NUL "x")), 2%Z)])
  = Object [("k"%string, Int32 2)].
Proof. reflexivity. Qed.

(** * Further properties of the registry *)

Lemma add_instances T o h w :
  V8PP_USE_GLOBAL_OBJECTS_REGISTRY w = true →
  instances T (add T o h w) = {[o]} ∪ instances T w.
Proof. world_cases w; [|done]. intros _. by rewrite lookup_total_insert_eq. Qed.

Lemma add_instances_other T T' o h w :
  T ≠ T' → instances T' (add T o h w) = instances T' w.
Proof. world_cases w; [|done]. intros Hne. by rewrite lookup_total_insert_ne. Qed.

Lemma remove_instances_other T T' o d w :
  T ≠ T' → instances T' (remove T o d w) = instances T' w.
Proof.
  world_cases w; intros Hne.
  - destruct (glob !! o); [destruct d|]; simpl; by rewrite lookup_total_insert_ne.
  - destruct ((tables !!! T) !! o); [destruct d|]; done.
Qed.

Lemma unordered_map_insert_fresh k v (m : gmap addr persistent) :
  m !! k = None → unordered_map_insert k v m = <[k:=v]> m.
Proof. unfold unordered_map_insert. by intros ->. Qed.

(** X1: [add] of an unregistered object makes [find] return its handle,
    grows the table by one entry, emits no event, and leaves the result of
    [find] for every other table slot as it was. *)
Theorem add_unregistered T o h w :
  items T w !! o = None →
  find T o (add T o h w) = Persistent h
  ∧ size (items T (add T o h w)) = S (size (items T w))
  ∧ trace (add T o h w) = trace w
  ∧ ∀ T' o', ¬ same_slot w T o T' o' → find T' o' (add T o h w) = find T' o' w.
Proof.
  intros Hfree. split; [|split; [|split]].
  - by rewrite find_items, add_items, unordered_map_insert_lookup, Hfree.
  - rewrite add_items, unordered_map_insert_fresh by done.
    by apply map_size_insert_None.
  - apply add_trace.
  - intros T' o' Hslot. rewrite !find_items, add_items_any.
    case_decide as Htable; [|done].
    rewrite unordered_map_insert_lookup_ne; [done|].
    intros ->. apply Hslot. split; [done|].
    destruct Htable as [?|?]; [by left|by right].
Qed.

Lemma add_unregistered_witness :
  find 1%N 4%N (add 1%N 4%N 40%N two_objects) = Persistent 40%N
  ∧ size (items 1%N (add 1%N 4%N 40%N two_objects)) = 4%nat.
Proof.
  destruct (add_unregistered 1%N 4%N 40%N two_objects) as (Hfind & Hsize & _);
    [reflexivity|].
  split; [exact Hfind | exact Hsize].
Defined.

(** X2: registering an unregistered object and removing it again restores
    the table; the only events are the disposal of the handle and then the
    callback on the object; [find] is empty afterwards. *)
Theorem add_then_remove T o h destroy w :
  items T w !! o = None →
  items T (remove T o destroy (add T o h w)) = items T w
  ∧ trace (remove T o destroy (add T o h w)) = trace w ++ removal_events T destroy (o, h)
  ∧ find T o (remove T o destroy (add T o h w)) = Empty.
Proof.
  intros Hfree.
  assert (Hin : items T (add T o h w) !! o = Some h).
  { by rewrite add_items, unordered_map_insert_lookup, Hfree. }
  split; [|split].
  - rewrite remove_items, add_items, unordered_map_insert_fresh by done.
    rewrite delete_insert_eq. by apply delete_id.
  - by rewrite remove_trace, Hin, add_trace.
  - by rewrite find_items, remove_items, lookup_delete_eq.
Qed.

Lemma add_then_remove_witness :
  items 1%N (remove 1%N 4%N (Some 9%N) (add 1%N 4%N 40%N two_objects)) = items 1%N two_objects
  ∧ trace (remove 1%N 4%N (Some 9%N) (add 1%N 4%N 40%N two_objects))
    = [Dispose 40%N; Destroy 9%N 1%N 4%N].
Proof.
  destruct (add_then_remove 1%N 4%N 40%N (Some 9%N) two_objects) as (Hit & Htr & _);
    [reflexivity|].
  split; [exact Hit | exact Htr].
Defined.

(** X3: a second [remove] of the same object, with whatever callback, is
    without effect: the state is the one the first [remove] left. *)
Theorem remove_twice T o d d' w :
  remove T o d' (remove T o d w) = remove T o d w.
Proof.
  assert (Hstep : ∀ v, items T v !! o = None →
                       o ∉ instances T v ∨ V8PP_USE_GLOBAL_OBJECTS_REGISTRY v = false →
                       is_Some (instances_ v !! T) ∨ V8PP_USE_GLOBAL_OBJECTS_REGISTRY v = false →
                       remove T o d' v = v).
  { intros v. world_cases v.
    - intros -> [Hout|?] [[s Hs]|?]; try done. f_equal.
      rewrite lookup_total_alt, Hs in Hout |- *. simpl in *.
      rewrite (difference_disjoint_L s {[o]}) by set_solver.
      by apply insert_id.
    - by intros ->. }
  apply Hstep.
  - by rewrite remove_items, lookup_delete_eq.
  - destruct (V8PP_USE_GLOBAL_OBJECTS_REGISTRY w) eqn:Hg.
    + left. rewrite remove_instances by done. set_solver.
    + right. by rewrite remove_flag.
  - destruct (V8PP_USE_GLOBAL_OBJECTS_REGISTRY w) eqn:Hg.
    + left. revert Hg. world_cases w; [|done]. intros _.
      destruct (glob !! o); [destruct d|]; simpl; rewrite lookup_insert_eq; by eexists.
    + right. by rewrite remove_flag.
Qed.

(** X4: when an object is registered twice, the handle of the second [add]
    is neither stored nor ever disposed: the [remove] that follows disposes
    the first handle only, and leaves no entry. *)
Theorem second_handle_is_dropped T o h1 h2 destroy w :
  items T w !! o = None → h1 ≠ h2 →
  trace (remove T o destroy (add T o h2 (add T o h1 w)))
    = trace w ++ removal_events T destroy (o, h1)
  ∧ (Dispose h2 ∉ removal_events T destroy (o, h1))
  ∧ (∀ T' o', items T' (add T o h2 (add T o h1 w)) !! o' = Some h2 →
              items T' w !! o' = Some h2)
  ∧ items T (remove T o destroy (add T o h2 (add T o h1 w))) !! o = None.
Proof.
  intros Hfree Hne.
  assert (H1 : items T (add T o h1 w) !! o = Some h1).
  { by rewrite add_items, unordered_map_insert_lookup, Hfree. }
  assert (H2 : items T (add T o h2 (add T o h1 w)) !! o = Some h1).
  { by rewrite add_items, unordered_map_insert_lookup, H1. }
  split; [|split; [|split]].
  - by rewrite remove_trace, H2, !add_trace.
  - unfold removal_events. simpl.
    destruct destroy; intros Hin; repeat (apply elem_of_cons in Hin as [Hin|Hin]);
      try congruence; by apply elem_of_nil in Hin.
  - intros T' o'. rewrite !add_items_any, add_flag.
    case_decide as Htable; [|done].
    destruct (decide (o' = o)) as [->|Ho].
    + rewrite !unordered_map_insert_lookup. destruct (items T' w !! o) eqn:E; simpl.
      * done.
      * congruence.
    + by rewrite !unordered_map_insert_lookup_ne.
  - by rewrite remove_items, lookup_delete_eq.
Qed.

Lemma second_handle_is_dropped_witness :
  trace (remove 1%N 4%N None (add 1%N 4%N 41%N (add 1%N 4%N 40%N two_objects)))
  = [Dispose 40%N].
Proof.
  destruct (second_handle_is_dropped 1%N 4%N 40%N 41%N None two_objects)
    as (Htr & _); [reflexivity|discriminate|exact Htr].
Defined.

(** X5: [remove] leaves every other table slot as it was, and the instance
    sets of the other classes too. *)
Theorem remove_keeps_others T o destroy w :
  (∀ T' o', ¬ same_slot w T o T' o' →
            find T' o' (remove T o destroy w) = find T' o' w)
  ∧ (∀ T', T ≠ T' → instances T' (remove T o destroy w) = instances T' w)
  ∧ (∀ o', o' ≠ o → (o' ∈ instances T (remove T o destroy w) ↔ o' ∈ instances T w)).
Proof.
  split; [|split].
  - intros T' o' Hslot. rewrite !find_items, remove_items_any.
    case_decide as Htable; [|done].
    rewrite lookup_delete_ne; [done|].
    intros ->. apply Hslot. split; [done|].
    destruct Htable as [?|?]; [by left|by right].
  - intros T' Hne. by apply remove_instances_other.
  - intros o' Hne. destruct (V8PP_USE_GLOBAL_OBJECTS_REGISTRY w) eqn:Hg.
    + rewrite remove_instances by done. set_solver.
    + revert Hg. world_cases w; [done|]. intros _.
      by destruct ((tables !!! T) !! o); [destruct destroy|].
Qed.

(** ** What remove_all keeps *)

(** Whatever every [remove] keeps, [remove_all] keeps. *)
Lemma remove_all_preserves (P : world → Prop) begin_ T destroy :
  (∀ o w, P w → P (remove T o destroy w)) →
  ∀ fuel w w', remove_all begin_ fuel T destroy w = Some w' → P w → P w'.
Proof.
  intros Hstep. induction fuel as [|fuel IH]; intros w w' Hrun HP; [done|].
  simpl in Hrun. destruct (begin_ (pending T w)) as [o|].
  - eapply IH; [exact Hrun|]. by apply Hstep.
  - by injection Hrun as <-.
Qed.

(** [remove_all] with an order that picks from the drained container
    touches the slots of that container only. *)
Lemma remove_all_frame begin_ T destroy :
  begin_spec begin_ →
  ∀ fuel w w', remove_all begin_ fuel T destroy w = Some w' →
  ∀ T' o', (∀ o, o ∈ pending T w → ¬ same_slot w T o T' o') →
           items T' w' !! o' = items T' w !! o'.
Proof.
  intros Hb. induction fuel as [|fuel IH]; intros w w' Hrun T' o' Hout; [done|].
  simpl in Hrun. pose proof (Hb (pending T w)) as Hpick.
  destruct (begin_ (pending T w)) as [o|]; [|by injection Hrun as <-].
  rewrite (IH _ _ Hrun T' o').
  - rewrite remove_items_any. case_decide as Htable; [|done].
    rewrite lookup_delete_ne; [done|].
    intros ->. apply (Hout o' Hpick). split; [done|].
    destruct Htable as [?|?]; [by left|by right].
  - intros x Hx [-> Htable]. rewrite remove_pending in Hx.
    apply elem_of_difference in Hx as [Hx _].
    apply (Hout o' Hx). split; [done|]. by rewrite remove_flag in Htable.
Qed.

Section RemoveAllScope.
Variable begin_ : gset addr → option addr.
Hypothesis begin_ok : begin_spec begin_.
Variables (T : ty) (destroy : option fnptr).

(** X6: [remove_all] of one class returns and leaves every entry outside
    the container it drains as it was: in the global layout the entries
    whose address is not in the instance set of the class, in the per-type
    layout the tables of the other classes; the instance sets of the other
    classes are untouched. *)
Theorem remove_all_keeps_others fuel w :
  (size (pending T w) < fuel)%nat →
  ∃ w',
    remove_all begin_ fuel T destroy w = Some w'
    ∧ (∀ o', o' ∉ pending T w → find T o' w' = find T o' w)
    ∧ (V8PP_USE_GLOBAL_OBJECTS_REGISTRY w = false →
       ∀ T' o', T ≠ T' → find T' o' w' = find T' o' w)
    ∧ (∀ T', T ≠ T' → instances T' w' = instances T' w).
Proof.
  intros Hfuel.
  destruct (remove_all_spec begin_ begin_ok T destroy fuel w Hfuel)
    as (w' & l & Hrun & _).
  exists w'. split; [done|]. split; [|split].
  - intros o' Hout. rewrite !find_items.
    rewrite (remove_all_frame begin_ T destroy begin_ok fuel w w' Hrun T o'); [done|].
    intros o Ho [-> _]. done.
  - intros Hg T' o' Hne. rewrite !find_items.
    rewrite (remove_all_frame begin_ T destroy begin_ok fuel w w' Hrun T' o'); [done|].
    intros o Ho [_ [Hglobal|Hsame]]; congruence.
  - intros T' Hne.
    apply (remove_all_preserves (λ v, instances T' v = instances T' w)
             begin_ T destroy) with (fuel := fuel) (w := w); [|done|done].
    intros o v Hv. by rewrite remove_instances_other.
Qed.

(** X7: once [remove_all] has returned, a further [remove_all] of the same
    class, with any callback, returns at once with the state unchanged: no
    disposal, no callback. *)
Theorem remove_all_twice fuel w :
  (size (pending T w) < fuel)%nat →
  ∃ w',
    remove_all begin_ fuel T destroy w = Some w'
    ∧ ∀ fuel' destroy', remove_all begin_ (S fuel') T destroy' w' = Some w'.
Proof.
  intros Hfuel.
  destruct (remove_all_spec begin_ begin_ok T destroy fuel w Hfuel)
    as (w' & l & Hrun & Hemp & _).
  exists w'. split; [done|]. intros fuel' destroy'. simpl. rewrite Hemp.
  pose proof (begin_ok ∅) as Hpick.
  destruct (begin_ ∅) as [x|]; [|done].
  by apply not_elem_of_empty in Hpick.
Qed.

End RemoveAllScope.

Lemma remove_all_keeps_others_witness :
  ∃ w', remove_all first_element 3 1%N (Some 9%N) two_objects = Some w'
        ∧ find 1%N 1%N w' = Persistent 10%N.
Proof.
  destruct (remove_all_keeps_others first_element first_element_spec 1%N (Some 9%N)
              3 two_objects) as (w' & Hrun & Hkeep & _).
  - vm_compute. lia.
  - exists w'. split; [exact Hrun|]. rewrite Hkeep; [reflexivity|].
    apply (bool_decide_unpack _). vm_compute. exact I.
Defined.

Lemma remove_all_twice_witness :
  ∃ w', remove_all first_element 3 1%N (Some 9%N) two_objects = Some w'
        ∧ remove_all first_element 1 1%N None w' = Some w'.
Proof.
  destruct (remove_all_twice first_element first_element_spec 1%N (Some 9%N)
              3 two_objects) as (w' & Hrun & Hagain).
  - vm_compute. lia.
  - exists w'. split; [exact Hrun | apply Hagain].
Defined.

(** ** Invariants along a history *)

Lemma exec_flag c w :
  V8PP_USE_GLOBAL_OBJECTS_REGISTRY (fst (exec c w)) = V8PP_USE_GLOBAL_OBJECTS_REGISTRY w.
Proof. destruct c; simpl; by autorewrite with registry. Qed.

(** An invariant of every call is an invariant of every history. *)
Lemma run_invariant (P : world → Prop) :
  (∀ c w, P w → P (fst (exec c w))) →
  ∀ cs w, P w → P (fst (run cs w)).
Proof.
  intros Hstep. induction cs as [|c cs IH]; intros w HP; simpl; [done|].
  specialize (Hstep c w HP). destruct (exec c w) as [w1 r1]. simpl in Hstep.
  specialize (IH w1 Hstep). by destruct (run cs w1).
Qed.

Lemma add_table_covered T o h w : table_covered w → table_covered (add T o h w).
Proof.
  intros Hcov. destruct (V8PP_USE_GLOBAL_OBJECTS_REGISTRY w) eqn:Hg.
  - intros x. rewrite add_global, elem_of_dom by done.
    destruct (decide (x = o)) as [->|Hne].
    + intros _. exists T. rewrite add_instances by done.
      apply elem_of_union_l, elem_of_singleton. done.
    + rewrite unordered_map_insert_lookup_ne, <- elem_of_dom by done.
      intros [T' HT']%Hcov. exists T'. destruct (decide (T = T')) as [<-|HT].
      * rewrite add_instances by done. by apply elem_of_union_r.
      * by rewrite add_instances_other.
  - revert Hcov Hg. unfold table_covered. world_cases w; [done|]. by intros Hcov _.
Qed.

Lemma remove_table_covered T o d w : table_covered w → table_covered (remove T o d w).
Proof.
  intros Hcov. destruct (V8PP_USE_GLOBAL_OBJECTS_REGISTRY w) eqn:Hg.
  - intros x. rewrite remove_global, dom_delete_L by done.
    intros [[T' HT']%Hcov Hne%not_elem_of_singleton]%elem_of_difference.
    exists T'. destruct (decide (T = T')) as [<-|HT].
    + rewrite remove_instances by done.
      apply elem_of_difference. split; [done|]. by apply not_elem_of_singleton.
    + by rewrite remove_instances_other.
  - revert Hcov Hg. unfold table_covered. world_cases w; [done|]. intros Hcov _.
    by destruct ((tables !!! T) !! o); [destruct d|].
Qed.

(** X8: after any history of [add], [remove] and [find] calls, and after a
    [remove_all] on top of it, every entry of the global table is in the
    instance set of some class, so that the [remove_all] calls of the
    classes reach every entry. *)
Theorem global_table_covered global cs :
  table_covered (fst (run cs (startup global)))
  ∧ ∀ begin_ fuel T destroy w',
      remove_all begin_ fuel T destroy (fst (run cs (startup global))) = Some w' →
      table_covered w'.
Proof.
  assert (Hrun : table_covered (fst (run cs (startup global)))).
  { apply run_invariant.
    - intros [T o h|T o d|T o] w Hw; simpl; [by apply add_table_covered| |done].
      by apply remove_table_covered.
    - intros o. unfold startup. simpl. by rewrite dom_empty_L. }
  split; [done|]. intros begin_ fuel T destroy w' Hall.
  eapply (remove_all_preserves table_covered); [|exact Hall|exact Hrun].
  intros o w. apply remove_table_covered.
Qed.

(** ** The two layouts under remove_all *)

Lemma dom_unordered_map_insert k v (m : gmap addr persistent) :
  dom (unordered_map_insert k v m) = {[k]} ∪ dom m.
Proof.
  unfold unordered_map_insert. destruct (m !! k) eqn:E.
  - apply elem_of_dom_2 in E. set_solver.
  - apply dom_insert_L.
Qed.

Section LayoutsRemoveAll.
Variable owner : addr → ty.

Lemma run_typed_invariant (P : world → Prop) :
  (∀ c w, call_ty c = owner (call_addr c) → P w → P (fst (exec c w))) →
  ∀ cs, single_typed owner cs → ∀ w, P w → P (fst (run cs w)).
Proof.
  intros Hstep cs. induction 1 as [|c cs Hc Hcs IH]; intros w HP; simpl; [done|].
  specialize (Hstep c w Hc HP). destruct (exec c w) as [w1 r1]. simpl in Hstep.
  specialize (IH w1 Hstep). by destruct (run cs w1).
Qed.

Lemma exec_instances_track c w :
  call_ty c = owner (call_addr c) →
  V8PP_USE_GLOBAL_OBJECTS_REGISTRY w = true ∧ instances_track owner w →
  V8PP_USE_GLOBAL_OBJECTS_REGISTRY (fst (exec c w)) = true
  ∧ instances_track owner (fst (exec c w)).
Proof.
  intros Hty [Hg Htrack]. split; [by rewrite exec_flag|].
  unfold instances_track in *.
  destruct c as [T o h|T o d|T o]; simpl in *; subst T; [| |done].
  - intros T' x. rewrite add_global, dom_unordered_map_insert by done.
    rewrite elem_of_union, elem_of_singleton.
    destruct (decide (owner o = T')) as [<-|Hne].
    + rewrite add_instances, elem_of_union, elem_of_singleton, Htrack by done.
      split; [intros [->|[? ?]]; tauto | intros [? [?|?]]; tauto].
    + rewrite add_instances_other, Htrack by done.
      split; [tauto|]. intros [? [->|?]]; [done|tauto].
  - intros T' x. rewrite remove_global, dom_delete_L by done.
    rewrite elem_of_difference, elem_of_singleton.
    destruct (decide (owner o = T')) as [<-|Hne].
    + rewrite remove_instances, elem_of_difference, elem_of_singleton, Htrack by done.
      tauto.
    + rewrite remove_instances_other, Htrack by done.
      split; [|tauto]. intros [? ?]. split; [done|]. split; [done|]. by intros ->.
Qed.

Lemma exec_tables_owned c w :
  call_ty c = owner (call_addr c) →
  V8PP_USE_GLOBAL_OBJECTS_REGISTRY w = false ∧ tables_owned owner w →
  V8PP_USE_GLOBAL_OBJECTS_REGISTRY (fst (exec c w)) = false
  ∧ tables_owned owner (fst (exec c w)).
Proof.
  intros Hty [Hg Hown]. split; [by rewrite exec_flag|].
  assert (Hitems : ∀ v T, V8PP_USE_GLOBAL_OBJECTS_REGISTRY v = false →
                          items_ v !!! T = items T v).
  { intros v T Hv. unfold items. by rewrite Hv. }
  destruct c as [T o h|T o d|T o]; simpl in *; subst T; [| |done].
  - intros T' x. rewrite Hitems, add_items_any by (by rewrite add_flag).
    case_decide as Htable.
    + destruct Htable as [? | ->]; [congruence|].
      rewrite dom_unordered_map_insert, elem_of_union, elem_of_singleton.
      intros [->|Hx]; [done|]. apply Hown. by rewrite Hitems.
    + intros Hx. apply Hown. by rewrite Hitems.
  - intros T' x. rewrite Hitems, remove_items_any by (by rewrite remove_flag).
    case_decide as Htable.
    + rewrite dom_delete_L, elem_of_difference. intros [Hx _].
      apply Hown. by rewrite Hitems.
    + intros Hx. apply Hown. by rewrite Hitems.
Qed.

(** X9: after a history in which each address is used at a single class
    type, [remove_all] of a class has the same entries to drain in both
    layouts; with enough fuel it returns in both, and the events it emits
    are the disposal and callback pairs of the same entries, up to the
    order of the entries. *)
Theorem layouts_agree_on_remove_all cs T :
  single_typed owner cs →
  registered_entries T (fst (run cs (startup false)))
  = registered_entries T (fst (run cs (startup true)))
  ∧ ∀ begin_p begin_g destroy fuel,
      begin_spec begin_p → begin_spec begin_g →
      (size (registered_entries T (fst (run cs (startup false)))) < fuel)%nat →
      ∃ wp wg lp lg,
        remove_all begin_p fuel T destroy (fst (run cs (startup false))) = Some wp
        ∧ remove_all begin_g fuel T destroy (fst (run cs (startup true))) = Some wg
        ∧ lp ≡ₚ lg
        ∧ trace wp = trace (fst (run cs (startup false)))
                     ++ concat (removal_events T destroy <$> lp)
        ∧ trace wg = trace (fst (run cs (startup true)))
                     ++ concat (removal_events T destroy <$> lg).
Proof.
  intros Hcs.
  destruct (run_agree owner cs Hcs _ _ (startup_agree owner)) as [_ (Hp & Hg & _ & Hit)].
  destruct (run_typed_invariant _ exec_instances_track cs Hcs (startup true))
    as [_ Htrack].
  { split; [done|]. intros T' x.
    change (instances T' (startup true)) with ((∅ : gmap ty (gset addr)) !!! T').
    change (global_registry_objects_ (startup true)) with (∅ : gmap addr persistent).
    rewrite lookup_total_empty, dom_empty_L, elem_of_empty.
    split; [|tauto]. intros Hx. by apply (not_elem_of_empty (C:=gset addr)) in Hx. }
  destruct (run_typed_invariant _ exec_tables_owned cs Hcs (startup false))
    as [_ Hown].
  { split; [done|]. intros T' x.
    change (items_ (startup false)) with (∅ : gmap ty (gmap addr persistent)).
    rewrite lookup_total_empty. intros [v Hv]%elem_of_dom.
    change (inhabitant : gmap addr persistent) with (∅ : gmap addr persistent) in Hv.
    by rewrite lookup_empty in Hv. }
  set (vp := fst (run cs (startup false))) in *.
  set (vg := fst (run cs (startup true))) in *.
  assert (Hsame : registered_entries T vp = registered_entries T vg).
  { apply map_eq. intros x. rewrite !registered_entries_lookup.
    unfold pending. rewrite Hp, Hg, (items_global T vg) by done.
    destruct (decide (owner x = T)) as [<-|Hne].
    - rewrite Hit. destruct (global_registry_objects_ vg !! x) as [h|] eqn:E.
      + rewrite !decide_True; [done| |].
        * apply Htrack. split; [done|]. by apply elem_of_dom_2 in E.
        * apply elem_of_dom. rewrite Hit. by eexists.
      + by repeat case_decide.
    - rewrite decide_False, decide_False; [done| |].
      + intros [? _]%Htrack. done.
      + intros Hx. apply Hne. apply Hown. revert Hx. unfold items. by rewrite Hp. }
  split; [done|]. intros begin_p begin_g destroy fuel Hbp Hbg Hfuel.
  assert (Hpp : pending T vp = dom (registered_entries T vp)).
  { unfold pending, registered_entries, items. by rewrite Hp. }
  assert (Hpg : pending T vg = dom (registered_entries T vg)).
  { assert (Hpend : pending T vg = instances T vg).
    { unfold pending. by rewrite Hg. }
    apply set_eq. intros x.
    rewrite elem_of_dom, registered_entries_lookup, Hpend, (items_global T vg) by done.
    case_decide as Hx; [|split; [done|by intros [? ?]]].
    split; [|done]. intros _. apply elem_of_dom. by apply Htrack in Hx as [_ ?]. }
  destruct (remove_all_spec begin_p Hbp T destroy fuel vp)
    as (wp & lp & Hrp & _ & Hlp & Htp & _).
  { by rewrite Hpp, size_dom. }
  destruct (remove_all_spec begin_g Hbg T destroy fuel vg)
    as (wg & lg & Hrg & _ & Hlg & Htg & _).
  { by rewrite Hpg, size_dom, <- Hsame. }
  exists wp, wg, lp, lg. split; [done|]. split; [done|]. split; [|done].
  by rewrite Hlp, Hlg, Hsame.
Qed.

End LayoutsRemoveAll.

Lemma layouts_agree_on_remove_all_witness :
  registered_entries 1%N
    (fst (run [CallAdd 1%N 100%N 7%N; CallAdd 2%N 200%N 8%N; CallAdd 1%N 101%N 9%N]
              (startup false)))
  = registered_entries 1%N
      (fst (run [CallAdd 1%N 100%N 7%N; CallAdd 2%N 200%N 8%N; CallAdd 1%N 101%N 9%N]
                (startup true))).
Proof.
  apply (layouts_agree_on_remove_all (λ o, if decide (o = 200%N) then 2%N else 1%N)).
  repeat constructor.
Defined.

(** ** Where disposals and callbacks come from *)

Lemma elem_of_added_handles h cs :
  h ∈ added_handles cs ↔ ∃ T o, CallAdd T o h ∈ cs.
Proof.
  unfold added_handles. rewrite list_elem_of_In, in_flat_map. split.
  - intros ([T o h'|?|?] & Hc & Hh); simpl in Hh; try done.
    destruct Hh as [->|[]]. exists T, o. by apply list_elem_of_In.
  - intros (T & o & Hc). exists (CallAdd T o h). split; [by apply list_elem_of_In|].
    by left.
Qed.

Lemma elem_of_disposed_handles h tr :
  h ∈ disposed_handles tr ↔ Dispose h ∈ tr.
Proof.
  unfold disposed_handles. rewrite list_elem_of_In, in_flat_map. split.
  - intros ([h'|?] & He & Hh); simpl in Hh; try done.
    destruct Hh as [->|[]]. by apply list_elem_of_In.
  - intros He. exists (Dispose h). split; [by apply list_elem_of_In|]. by left.
Qed.

Lemma same_slot_items w T o T' o' :
  same_slot w T o T' o' → items T' w !! o' = items T w !! o.
Proof.
  intros [-> [Hg | ->]]; [|done]. by rewrite !(items_global _ w).
Qed.

Lemma stored_after_add T o h w T' o' h' :
  items T' (add T o h w) !! o' = Some h' →
  items T' w !! o' = Some h'
  ∨ (h' = h ∧ same_slot w T o T' o' ∧ items T' w !! o' = None).
Proof.
  rewrite add_items_any. case_decide as Htable; [|by left].
  destruct (decide (o' = o)) as [->|Hne].
  - rewrite unordered_map_insert_lookup.
    destruct (items T' w !! o) as [h0|] eqn:E; simpl; intros [= <-]; [by left|].
    right. split; [done|]. split; [|done]. split; [done|].
    destruct Htable as [?|?]; [by left|by right].
  - rewrite unordered_map_insert_lookup_ne by done. by left.
Qed.

Lemma stored_after_remove T o d w T' o' h' :
  items T' (remove T o d w) !! o' = Some h' →
  items T' w !! o' = Some h' ∧ ¬ same_slot w T o T' o'.
Proof.
  rewrite remove_items_any. case_decide as Htable.
  - intros [Hne Hold]%lookup_delete_Some. split; [done|]. by intros [-> _].
  - intros Hold. split; [done|]. intros [_ [?|?]]; apply Htable; [by left|by right].
Qed.

Lemma exec_justified c past w :
  justified past w → justified (past ++ [c]) (fst (exec c w)).
Proof.
  intros (Hstored & Hdisp & Hcall).
  assert (Hold : ∀ T o h, items T w !! o = Some h → h ∈ added_handles (past ++ [c])).
  { intros T o h [T' HT']%Hstored. apply elem_of_added_handles.
    exists T', o. by apply elem_of_app; left. }
  destruct c as [T o h|T o d|T o]; simpl.
  - split; [|split].
    + intros T' o' h' [Hh|(-> & [-> _] & _)]%stored_after_add.
      * destruct (Hstored _ _ _ Hh) as [T'' HT'']. exists T''. by apply elem_of_app; left.
      * exists T. apply elem_of_app. right. apply list_elem_of_here.
    + intros h'. rewrite add_trace. intros Hh%Hdisp.
      apply elem_of_added_handles in Hh as (T' & o' & Hh).
      apply elem_of_added_handles. exists T', o'. by apply elem_of_app; left.
    + intros f T' o'. rewrite add_trace. intros Hc%Hcall. by apply elem_of_app; left.
  - split; [|split].
    + intros T' o' h' [Hh _]%stored_after_remove.
      destruct (Hstored _ _ _ Hh) as [T'' HT'']. exists T''. by apply elem_of_app; left.
    + intros h'. rewrite remove_trace, elem_of_app. intros [Hh%Hdisp|Hnew].
      * apply elem_of_added_handles in Hh as (T' & o' & Hh).
        apply elem_of_added_handles. exists T', o'. by apply elem_of_app; left.
      * destruct (items T w !! o) as [h0|] eqn:E; [|by apply elem_of_nil in Hnew].
        unfold removal_events in Hnew. simpl in Hnew.
        apply elem_of_cons in Hnew as [[= ->]|Hnew]; [by eapply Hold|].
        destruct d; [apply elem_of_cons in Hnew as [?|Hnew]; [done|]|];
          by apply elem_of_nil in Hnew.
    + intros f T' o'. rewrite remove_trace, elem_of_app. intros [Hc%Hcall|Hnew].
      * by apply elem_of_app; left.
      * destruct (items T w !! o) as [h0|] eqn:E; [|by apply elem_of_nil in Hnew].
        unfold removal_events in Hnew. simpl in Hnew.
        apply elem_of_cons in Hnew as [?|Hnew]; [done|].
        destruct d as [g|]; [|by apply elem_of_nil in Hnew].
        apply elem_of_cons in Hnew as [[= -> -> ->]|Hnew]; [|by apply elem_of_nil in Hnew].
        apply elem_of_app. right. apply list_elem_of_here.
  - split; [|split].
    + intros T' o' h' [T'' HT'']%Hstored. exists T''. by apply elem_of_app; left.
    + intros h' Hh%Hdisp. apply elem_of_added_handles in Hh as (T' & o' & Hh).
      apply elem_of_added_handles. exists T', o'. by apply elem_of_app; left.
    + intros f T' o' Hc%Hcall. by apply elem_of_app; left.
Qed.

Lemma run_justified cs :
  ∀ past w, justified past w → justified (past ++ cs) (fst (run cs w)).
Proof.
  induction cs as [|c cs IH]; intros past w Hj; simpl.
  - by rewrite app_nil_r.
  - pose proof (exec_justified c past w Hj) as Hstep.
    destruct (exec c w) as [w1 r1]. simpl in Hstep.
    specialize (IH _ _ Hstep). rewrite <- app_assoc in IH. simpl in IH.
    by destruct (run cs w1).
Qed.

Lemma startup_justified global : justified [] (startup global).
Proof.
  split; [|split].
  - intros T o h. unfold items, startup. simpl.
    destruct global; [by rewrite lookup_empty|].
    rewrite lookup_total_empty.
    change (inhabitant : gmap addr persistent) with (∅ : gmap addr persistent).
    by rewrite lookup_empty.
  - intros h Hh. by apply elem_of_nil in Hh.
  - intros f T o Hc. by apply elem_of_nil in Hc.
Qed.

(** X10: along any history from program start, every handle the registry
    holds was passed to an [add] for that address, every handle it disposed
    was passed to an [add], and every callback call was asked for by a
    [remove] of that object with that callback. *)
Theorem history_justifies global cs :
  justified cs (fst (run cs (startup global))).
Proof. apply (run_justified cs [] (startup global)), startup_justified. Qed.

(** ** No handle is disposed twice *)

Lemma added_handles_app cs1 cs2 :
  added_handles (cs1 ++ cs2) = added_handles cs1 ++ added_handles cs2.
Proof. apply flat_map_app. Qed.

Lemma disposed_handles_app tr1 tr2 :
  disposed_handles (tr1 ++ tr2) = disposed_handles tr1 ++ disposed_handles tr2.
Proof. apply flat_map_app. Qed.

Lemma disposed_by_removal T d it :
  disposed_handles (removal_events T d it) = [snd it].
Proof. unfold removal_events. by destruct d. Qed.

Lemma same_slot_flag w w' T o T' o' :
  V8PP_USE_GLOBAL_OBJECTS_REGISTRY w' = V8PP_USE_GLOBAL_OBJECTS_REGISTRY w →
  same_slot w T o T' o' → same_slot w' T o T' o'.
Proof. unfold same_slot. by intros ->. Qed.

Lemma same_slot_trans w T1 o1 T2 o2 T3 o3 :
  same_slot w T1 o1 T2 o2 → same_slot w T1 o1 T3 o3 → same_slot w T2 o2 T3 o3.
Proof.
  intros [-> [Hg | ->]] [-> H3]; (split; [done|]); [by left|done].
Qed.

(** One call of a history whose handles are pairwise distinct. *)
Lemma exec_disposed_once c past w :
  NoDup (added_handles (past ++ [c])) →
  justified past w → disposed_once w → disposed_once (fst (exec c w)).
Proof.
  rewrite added_handles_app. intros Hnd (Hstored & Hdisp & _) (Hnodup & Hlive & Huniq).
  destruct c as [T o h|T o d|T o]; simpl; [| |done].
  - assert (Hfresh : h ∉ added_handles past).
    { apply NoDup_app in Hnd as (_ & Hsep & _). intros Hin.
      apply (Hsep h Hin). simpl. apply list_elem_of_here. }
    assert (Hnew : ∀ T' o', items T' w !! o' ≠ Some h).
    { intros T' o' [T'' HT'']%Hstored. apply Hfresh, elem_of_added_handles. eauto. }
    split; [|split].
    + by rewrite add_trace.
    + intros T' o' h'. rewrite add_trace.
      intros [Hold|(-> & _ & _)]%stored_after_add; [by eapply Hlive|].
      intros Hd%elem_of_disposed_handles%Hdisp. done.
    + intros T1 o1 T2 o2 h' H1 H2.
      apply (same_slot_flag w); [by rewrite add_flag|].
      apply stored_after_add in H1 as [H1|(-> & Hs1 & _)];
        apply stored_after_add in H2 as [H2|(E2 & Hs2 & _)].
      * by eapply Huniq.
      * subst h'. by apply Hnew in H1.
      * by apply Hnew in H2.
      * by eapply same_slot_trans.
  - destruct (items T w !! o) as [h|] eqn:Ho.
    + assert (Hkept : ∀ T' o' h', items T' (remove T o d w) !! o' = Some h' →
                                  items T' w !! o' = Some h' ∧ h' ≠ h).
      { intros T' o' h' [Hold Hslot]%stored_after_remove. split; [done|].
        intros ->. apply Hslot. by eapply Huniq. }
      split; [|split].
      * rewrite remove_trace, Ho, disposed_handles_app, disposed_by_removal.
        apply NoDup_app. split; [done|]. split; [|apply NoDup_singleton].
        intros x Hx [->|[]%elem_of_nil]%elem_of_cons. by eapply Hlive.
      * intros T' o' h' [Hold Hne]%Hkept.
        rewrite remove_trace, Ho, disposed_handles_app, disposed_by_removal.
        intros [Hd|[->|[]%elem_of_nil]%elem_of_cons]%elem_of_app; [|done].
        by eapply Hlive.
      * intros T1 o1 T2 o2 h' [H1 _]%Hkept [H2 _]%Hkept.
        apply (same_slot_flag w); [by rewrite remove_flag|]. by eapply Huniq.
    + split; [|split].
      * by rewrite remove_trace, Ho, app_nil_r.
      * intros T' o' h' [Hold _]%stored_after_remove.
        rewrite remove_trace, Ho, app_nil_r. by eapply Hlive.
      * intros T1 o1 T2 o2 h' [H1 _]%stored_after_remove [H2 _]%stored_after_remove.
        apply (same_slot_flag w); [by rewrite remove_flag|]. by eapply Huniq.
Qed.

Lemma run_disposed_once cs :
  ∀ past w, NoDup (added_handles (past ++ cs)) →
  justified past w → disposed_once w → disposed_once (fst (run cs w)).
Proof.
  induction cs as [|c cs IH]; intros past w Hnd Hj Hd; simpl; [done|].
  assert (Hnd1 : NoDup (added_handles (past ++ [c]))).
  { replace (past ++ c :: cs) with ((past ++ [c]) ++ cs) in Hnd
      by (by rewrite <- app_assoc).
    rewrite added_handles_app in Hnd. by apply NoDup_app in Hnd as [? _]. }
  pose proof (exec_disposed_once c past w Hnd1 Hj Hd) as Hstep.
  pose proof (exec_justified c past w Hj) as Hjstep.
  destruct (exec c w) as [w1 r1]. simpl in Hstep, Hjstep.
  assert (Hrest : disposed_once (fst (run cs w1))).
  { apply (IH (past ++ [c])); [|done|done]. by rewrite <- app_assoc. }
  by destruct (run cs w1).
Qed.

Lemma startup_disposed_once global : disposed_once (startup global).
Proof.
  destruct (startup_justified global) as (Hstored & _).
  split; [constructor|]. split.
  - intros T o h [T' HT']%Hstored. by apply elem_of_nil in HT'.
  - intros T o T' o' h [T'' HT'']%Hstored. by apply elem_of_nil in HT''.
Qed.

(** X11: when the handles passed to [add] along a history are pairwise
    distinct, no handle is disposed twice, no disposed handle is still in
    a table, and no handle sits in two table slots. *)
Theorem no_double_dispose global cs :
  NoDup (added_handles cs) → disposed_once (fst (run cs (startup global))).
Proof.
  intros Hnd. apply (run_disposed_once cs [] (startup global)); [done| |].
  - apply startup_justified.
  - apply startup_disposed_once.
Qed.

Lemma no_double_dispose_witness :
  NoDup (disposed_handles (trace (fst (run
    [CallAdd 1%N 100%N 7%N; CallAdd 1%N 100%N 8%N; CallRemove 1%N 100%N None;
     CallAdd 2%N 100%N 9%N; CallRemove 2%N 100%N (Some 5%N); CallRemove 1%N 100%N None]
    (startup true))))).
Proof.
  apply (no_double_dispose true
    [CallAdd 1%N 100%N 7%N; CallAdd 1%N 100%N 8%N; CallRemove 1%N 100%N None;
     CallAdd 2%N 100%N 9%N; CallRemove 2%N 100%N (Some 5%N); CallRemove 1%N 100%N None]).
  vm_compute. repeat constructor; set_solver.
Defined.

(** * Further properties of the conversions *)

(** ** Ranges without random access *)

(** A store at the end of the array appends. *)
Lemma Array_Set_end (filled : list (option value)) v :
  Array_Set (Z.of_nat (length filled)) v filled = filled ++ [Some v].
Proof.
  unfold Array_Set. rewrite Nat2Z.id.
  rewrite decide_False by lia. by rewrite Nat.sub_diag.
Qed.

(** The loop on an array that grows, while the index does not wrap. *)
Lemma fill_grow `{ToV8 A} (w : world) (src : list A) :
  ∀ filled : list (option value),
  (Z.of_nat (length filled) + Z.of_nat (length src) < 2 ^ 32)%Z →
  fill w (Z.of_nat (length filled)) src filled = filled ++ converted w src.
Proof.
  induction src as [|x rest IH]; intros filled Hlen; cbn [fill].
  - unfold converted. simpl. by rewrite app_nil_r.
  - cbn [length] in Hlen. rewrite Array_Set_end.
    rewrite to_uint32_small by lia.
    replace (Z.of_nat (length filled) + 1)%Z
      with (Z.of_nat (length (filled ++ [Some (to_v8 w x)])))
      by (rewrite length_app; cbn [length]; lia).
    rewrite IH.
    + by rewrite <- app_assoc.
    + rewrite length_app. cbn [length]. lia.
Qed.

(** X12: for a range of fewer than [2^32] elements the overload for
    iterators without random access, which starts from an empty array and
    lets each store grow it, yields the array of the converted elements in
    order (the empty array for an empty range); below [2^31] elements it
    yields the same value as the random-access overload. *)
Theorem to_v8_forward_range `{ToV8 A} (w : world) (src : list A) :
  (Z.of_nat (length src) < 2 ^ 32)%Z →
  to_v8_forward w src = Array (converted w src)
  ∧ elementwise w src (to_v8_forward w src)
  ∧ ((Z.of_nat (length src) < 2 ^ 31)%Z →
     to_v8_forward w src = to_v8_random_access w src).
Proof.
  intros Hlen.
  assert (Hconv : to_v8_forward w src = Array (converted w src)).
  { unfold to_v8_forward. change (Array_New 0) with (@nil (option value)).
    by rewrite (fill_grow w src []) by (simpl; lia). }
  split; [done|]. split.
  - exists (converted w src). split; [done|]. unfold converted. split.
    + apply length_fmap.
    + intros i x Hx. by rewrite list_lookup_fmap, Hx.
  - intros Hshort. rewrite Hconv. unfold to_v8_random_access.
    rewrite presized_length by done.
    by rewrite (fill_presized w src []) by (simpl; lia).
Qed.

Lemma to_v8_forward_range_witness :
  to_v8_forward (startup false) ["x"%string; "yz"%string]
  = Array [Some (Str "x"); Some (Str "yz")].
Proof.
  destruct (to_v8_forward_range (startup false) ["x"%string; "yz"%string]) as [Hconv _].
  - simpl. lia.
  - exact Hconv.
Defined.

(** ** Strings *)

Lemma substring_all (s : string) : String.substring 0 (String.length s) s = s.
Proof. induction s as [|c s IH]; simpl; [done|]. by rewrite IH. Qed.

(** X13: a [std::string] shorter than [2^31] converts to the script string
    of all its characters, a terminator character inside it included; when
    it holds no terminator character, its C string converts to the same
    value through the [char const] pointer overload. *)
Theorem to_v8_std_string (w : world) (src : string) :
  (Z.of_nat (String.length src) < 2 ^ 31)%Z →
  to_v8 w src = Str src
  ∧ (Forall (λ c, c ≠ NUL) (list_ascii_of_string src) →
     to_v8 w (CharPtr (Some (src +:+ String NUL EmptyString))) = to_v8 w src).
Proof.
  intros Hlen.
  assert (Hall : to_v8 w src = Str src).
  { unfold to_v8, to_v8_string, String_New.
    rewrite to_int_small by lia. rewrite decide_False by lia.
    by rewrite Nat2Z.id, substring_all. }
  split; [done|]. intros Hs. rewrite Hall.
  unfold to_v8, to_v8_char_ptr, String_New. cbn [chars].
  rewrite decide_True by done. by rewrite c_str_terminated.
Qed.

Lemma to_v8_std_string_witness :
  to_v8 (startup false) ("a" +:+ String NUL "b") = Str ("a" +:+ String NUL "b").
Proof.
  destruct (to_v8_std_string (startup false) ("a" +:+ String NUL "b")) as [Hall _].
  - simpl. lia.
  - exact Hall.
Defined.

(** ** Maps whose keys convert to distinct names *)


Section DistinctNames.
Context `{ToName, ToV8 K, ToV8 V} (w : world).



End DistinctNames.


(** ** Class objects *)

(** X15: from the [add] of an unregistered object until its [remove], both
    the pointer overload and the reference overload convert the object to
    the handle it was registered with, whatever is added or removed for
    other table slots in between; after the [remove] they convert it to
    the empty handle. *)
Theorem to_v8_tracks_registry T o h destroy w :
  items T w !! o = None →
  to_v8 (add T o h w) (ClassPtr (T:=T) o) = Persistent h
  ∧ to_v8 (add T o h w) (ClassRef (T:=T) o) = Persistent h
  ∧ (∀ T' o' h' v, ¬ same_slot v T' o' T o →
       to_v8 v (ClassRef (T:=T) o) = Persistent h →
       to_v8 (add T' o' h' v) (ClassRef (T:=T) o) = Persistent h)
  ∧ (∀ T' o' d v, ¬ same_slot v T' o' T o →
       to_v8 v (ClassRef (T:=T) o) = Persistent h →
       to_v8 (remove T' o' d v) (ClassRef (T:=T) o) = Persistent h)
  ∧ to_v8 (remove T o destroy (add T o h w)) (ClassPtr (T:=T) o) = Empty
  ∧ to_v8 (remove T o destroy (add T o h w)) (ClassRef (T:=T) o) = Empty.
Proof.
  intros Hfree.
  unfold to_v8, to_v8_class_ref, to_v8, to_v8_class_ptr. cbn [address referent].
  assert (Hadd : find T o (add T o h w) = Persistent h).
  { by rewrite find_items, add_items, unordered_map_insert_lookup, Hfree. }
  assert (Hrem : find T o (remove T o destroy (add T o h w)) = Empty).
  { by rewrite find_items, remove_items, lookup_delete_eq. }
  split; [done|]. split; [done|]. split; [|split; [|done]].
  - intros T' o' h' v Hslot Hv. rewrite find_items, add_items_any.
    case_decide as Htable; [|done].
    rewrite unordered_map_insert_lookup_ne; [done|].
    intros ->. apply Hslot. split; [done|].
    destruct Htable as [?|?]; [by left|by right].
  - intros T' o' d v Hslot Hv. rewrite find_items, remove_items_any.
    case_decide as Htable; [|done].
    rewrite lookup_delete_ne; [done|].
    intros ->. apply Hslot. split; [done|].
    destruct Htable as [?|?]; [by left|by right].
Qed.

Lemma to_v8_tracks_registry_witness :
  to_v8 (add 1%N 4%N 40%N two_objects) (ClassRef (T:=1%N) 4%N) = Persistent 40%N
  ∧ to_v8 (remove 1%N 4%N None (add 1%N 4%N 40%N two_objects)) (ClassRef (T:=1%N) 4%N)
    = Empty.
Proof.
  destruct (to_v8_tracks_registry 1%N 4%N 40%N None two_objects)
    as (_ & Href & _ & _ & _ & Hgone); [reflexivity|].
  split; [exact Href | exact Hgone].
Defined.

(** * The registry as a whole *)

(** ** remove_all as a sequence of removes *)

Section RemoveAllUnfolded.
Variable begin_ : gset addr → option addr.
Hypothesis begin_ok : begin_spec begin_.
Variables (T : ty) (destroy : option fnptr).

(** X16: [remove_all] is [remove], with the same callback, of each object
    of the drained container once, in some order. *)
Theorem remove_all_is_removes fuel :
  ∀ w, (size (pending T w) < fuel)%nat →
  ∃ l,
    NoDup l
    ∧ (∀ o, o ∈ l ↔ o ∈ pending T w)
    ∧ remove_all begin_ fuel T destroy w
      = Some (fold_left (λ v o, remove T o destroy v) l w).
Proof.
  induction fuel as [|fuel IH]; intros w Hsz; [lia|].
  simpl. pose proof (begin_ok (pending T w)) as Hpick.
  destruct (begin_ (pending T w)) as [o|].
  - destruct (IH (remove T o destroy w)) as (l & Hnd & Hmem & Hrun).
    { pose proof (pending_shrinks T destroy w o Hpick). lia. }
    exists (o :: l). split; [|split; [|done]].
    + constructor; [|done]. rewrite Hmem, remove_pending.
      rewrite elem_of_difference, elem_of_singleton. tauto.
    + intros x. rewrite elem_of_cons, Hmem, remove_pending.
      rewrite elem_of_difference, elem_of_singleton.
      destruct (decide (x = o)) as [->|Hne]; tauto.
  - exists []. split; [constructor|]. split; [|done].
    intros x. rewrite Hpick, elem_of_nil, elem_of_empty. tauto.
Qed.

End RemoveAllUnfolded.

Lemma remove_all_is_removes_witness :
  ∃ l, NoDup l
       ∧ remove_all first_element 3 1%N (Some 9%N) two_objects
         = Some (fold_left (λ v o, remove 1%N o (Some 9%N) v) l two_objects).
Proof.
  destruct (remove_all_is_removes first_element first_element_spec 1%N (Some 9%N)
              3 two_objects) as (l & Hnd & _ & Hrun).
  - vm_compute. lia.
  - exists l. split; [exact Hnd | exact Hrun].
Defined.

(** ** One table slot along a history *)

Lemma hits_spec global T o c w :
  V8PP_USE_GLOBAL_OBJECTS_REGISTRY w = global →
  hits global T o c = true ↔
  call_addr c = o ∧ (V8PP_USE_GLOBAL_OBJECTS_REGISTRY w = true ∨ T = call_ty c).
Proof.
  intros <-. unfold hits.
  rewrite andb_true_iff, orb_true_iff, !bool_decide_eq_true.
  split; intros [? [?|?]]; split; auto.
Qed.

Lemma run_slot cs T o :
  ∀ w, items T (fst (run cs w)) !! o
       = slot_after (V8PP_USE_GLOBAL_OBJECTS_REGISTRY w) T o cs (items T w !! o).
Proof.
  induction cs as [|c cs IH]; intros w; simpl; [done|].
  assert (Hstep : items T (fst (exec c w)) !! o =
    if hits (V8PP_USE_GLOBAL_OBJECTS_REGISTRY w) T o c then
      match c with
      | CallAdd _ _ h => match items T w !! o with Some x => Some x | None => Some h end
      | CallRemove _ _ _ => None
      | CallFind _ _ => items T w !! o
      end
    else items T w !! o).
  { pose proof (hits_spec _ T o c w eq_refl) as Hhit.
    destruct (hits (V8PP_USE_GLOBAL_OBJECTS_REGISTRY w) T o c).
    - destruct Hhit as [[Ho Htable] _]; [done|].
      destruct c as [T' o' h|T' o' d|T' o']; simpl in *; subst o'; [| |done].
      + rewrite add_items_any, decide_True by done.
        rewrite unordered_map_insert_lookup. by destruct (items T w !! o).
      + rewrite remove_items_any, decide_True by done. apply lookup_delete_eq.
    - assert (Hmiss : ¬ (call_addr c = o
                         ∧ (V8PP_USE_GLOBAL_OBJECTS_REGISTRY w = true ∨ T = call_ty c))).
      { intros Hc. by apply Hhit in Hc. }
      destruct c as [T' o' h|T' o' d|T' o']; simpl in *; [| |done].
      + rewrite add_items_any. case_decide as Htable; [|done].
        apply unordered_map_insert_lookup_ne. intros ->. tauto.
      + rewrite remove_items_any. case_decide as Htable; [|done].
        apply lookup_delete_ne. intros ->. tauto. }
  pose proof (exec_flag c w) as Hflag.
  destruct (exec c w) as [w1 r1]. simpl in Hstep, Hflag.
  specialize (IH w1). rewrite Hflag, Hstep in IH.
  destruct (run cs w1) as [w2 r2]. simpl in *. rewrite IH.
  destruct (hits (V8PP_USE_GLOBAL_OBJECTS_REGISTRY w) T o c); [|done].
  destruct c; [|done|done]. by destruct (items T w !! o).
Qed.

(** X17: after a history from program start, what [find] returns for an
    object is decided by the calls that hit its table slot alone (same
    address, and same class in the per-type layout): the handle of the
    first [add] since the last [remove], the empty handle if there is
    none. *)
Theorem find_follows_history global cs T o :
  find T o (fst (run cs (startup global)))
  = match slot_after global T o cs None with
    | Some h => Persistent h
    | None => Empty
    end.
Proof.
  rewrite find_items, run_slot.
  replace (items T (startup global) !! o) with (@None persistent); [done|].
  destruct (startup_justified global) as (Hstored & _).
  destruct (items T (startup global) !! o) as [h|] eqn:E; [|done].
  destruct (Hstored _ _ _ E) as [T' HT']. by apply elem_of_nil in HT'.
Qed.
